(** * Locale routing and component assembly of the Stellar AIz site

    A shallow embedding of [docs/assets/js/i18n.js] (the [i18n] object) and
    [docs/assets/js/components.js] (the [ComponentLoader] class), followed by
    the properties of the two modules.

    JavaScript strings are embedded as [string]; every string operation the
    two files use ([startsWith], [===], [substring], [+], [includes],
    [replace], [toLowerCase]) works position by position, so the embedding
    does not depend on the alphabet.  Browser state the code reads or writes
    ([window.location], [localStorage], [navigator], the console, the DOM,
    the network) is an explicit record that the functions take and return. *)

From Stdlib Require Import String Ascii List Bool Arith Lia.
From stdpp Require Import base strings gmap list.
Import ListNotations.

Open Scope string_scope.

(** ** JavaScript string primitives *)

Module JS.

(** [s.startsWith(p)] *)
Fixpoint startsWith (s p : string) {struct p} : bool :=
  match p with
  | EmptyString => true
  | String c p' =>
      match s with
      | EmptyString => false
      | String d s' => if Ascii.eqb d c then startsWith s' p' else false
      end
  end.

(** [s.substring(n)]: the string without its first [n] characters. *)
Fixpoint substring (n : nat) (s : string) : string :=
  match n with
  | O => s
  | S n' =>
      match s with
      | EmptyString => EmptyString
      | String _ s' => substring n' s'
      end
  end.

(** [s.includes(p)] *)
Fixpoint includes (s p : string) : bool :=
  startsWith s p ||
  match s with
  | EmptyString => false
  | String _ s' => includes s' p
  end.

(** [s.replace(p, r)] with a string pattern: the first occurrence only. *)
Fixpoint replace (s p r : string) : string :=
  if startsWith s p then r +:+ substring (String.length p) s
  else
    match s with
    | EmptyString => EmptyString
    | String c s' => String c (replace s' p r)
    end.

(** [s.replace(/^p/, r)]: a pattern anchored at the start. *)
Definition replaceAtStart (s p r : string) : string :=
  if startsWith s p then r +:+ substring (String.length p) s else s.

(** [toLowerCase] on one character: only [A]..[Z] change.  (No character
    outside that range lowers to a letter of ['en'].) *)
Definition lowerChar (c : ascii) : ascii :=
  let n := nat_of_ascii c in
  if ((65 <=? n) && (n <=? 90))%nat then ascii_of_nat (n + 32) else c.

Fixpoint toLowerCase (s : string) : string :=
  match s with
  | EmptyString => EmptyString
  | String c s' => String (lowerChar c) (toLowerCase s')
  end.

(** A string between double quotes, as the log messages show names. *)
Definition quoted (s : string) : string :=
  String "034" (s +:+ String "034" EmptyString).

(** Truthiness of a value that is [null]/[undefined] ([None]) or a string. *)
Definition truthy (v : option string) : bool :=
  match v with
  | None => false
  | Some s => negb (String.eqb s "")
  end.

(** [a || b] on such values. *)
Definition or_else (a b : option string) : option string :=
  if truthy a then a else b.

End JS.

(** ** Browser state *)

(** [localStorage].  Any access raises when storage is denied (private
    mode, disabled storage); [setItem] also raises when the quota is used up. *)
Inductive StorageMode := Available | QuotaExceeded | Denied.

Record Storage := mkStorage {
  mode : StorageMode;
  items : gmap string string;
  (** successful [setItem] calls, oldest first *)
  journal : list (string * string)
}.

Inductive Exn :=
| SecurityError
| QuotaExceededError
| NetworkFailure (reason : string)
| HttpError (status : nat)
| BodyFailure (reason : string).

Definition getItem (st : Storage) (k : string) : Exn + option string :=
  match mode st with
  | Denied => inl SecurityError
  | _ => inr (items st !! k)
  end.

Definition setItem (st : Storage) (k v : string) : Exn + Storage :=
  match mode st with
  | Denied => inl SecurityError
  | QuotaExceeded => inl QuotaExceededError
  | Available =>
      inr {| mode := Available;
             items := <[k := v]> (items st);
             journal := journal st ++ [(k, v)] |}
  end.

(** A navigation request: [location.href = url] adds a history entry,
    [location.replace(url)] does not. *)
Inductive NavRequest :=
| Assign (url : string)
| Replace (url : string).

Record Window := mkWindow {
  pathname : string;               (* window.location.pathname *)
  hash : string;                   (* window.location.hash *)
  localStorage : Storage;
  language : option string;        (* navigator.language *)
  userLanguage : option string;    (* navigator.userLanguage *)
  warnings : list string;          (* console.warn, oldest first *)
  navigation : list NavRequest     (* navigations requested, oldest first *)
}.

Definition with_pathname (p : string) (w : Window) : Window :=
  {| pathname := p; hash := hash w; localStorage := localStorage w;
     language := language w; userLanguage := userLanguage w;
     warnings := warnings w; navigation := navigation w |}.

Definition with_storage (st : Storage) (w : Window) : Window :=
  {| pathname := pathname w; hash := hash w; localStorage := st;
     language := language w; userLanguage := userLanguage w;
     warnings := warnings w; navigation := navigation w |}.

Definition warn (msg : string) (w : Window) : Window :=
  {| pathname := pathname w; hash := hash w; localStorage := localStorage w;
     language := language w; userLanguage := userLanguage w;
     warnings := warnings w ++ [msg]; navigation := navigation w |}.

Definition request (r : NavRequest) (w : Window) : Window :=
  {| pathname := pathname w; hash := hash w; localStorage := localStorage w;
     language := language w; userLanguage := userLanguage w;
     warnings := warnings w; navigation := navigation w ++ [r] |}.

(** ** i18n.js *)

Module i18n.

Definition LANGUAGES : list string := ["ja"; "en"].
Definition DEFAULT_LANGUAGE : string := "ja".
Definition STORAGE_KEY : string := "stellar-aiz-language".

Definition getLanguageFromURL (w : Window) : string :=
  let path := pathname w in
  if JS.startsWith path "/en/" || String.eqb path "/en" then "en" else "ja".

(** [try { return localStorage.getItem(KEY) } catch (e) { return null }] *)
Definition getSavedLanguage (w : Window) : option string :=
  match getItem (localStorage w) STORAGE_KEY with
  | inr v => v
  | inl _ => None
  end.

(** [try { localStorage.setItem(KEY, lang) } catch (e) { }] *)
Definition saveLanguage (lang : string) (w : Window) : Window :=
  match setItem (localStorage w) STORAGE_KEY lang with
  | inr st => with_storage st w
  | inl _ => w
  end.

Definition getBrowserLanguage (w : Window) : string :=
  let browserLang := JS.or_else (language w) (userLanguage w) in
  if JS.truthy browserLang &&
     JS.startsWith (JS.toLowerCase (default "" browserLang)) "en"
  then "en" else "ja".

Definition detectLanguage (w : Window) : string :=
  let urlLang := getLanguageFromURL w in
  let savedLang := getSavedLanguage w in
  let browserLang := getBrowserLanguage w in
  urlLang.

Definition getRelativePath (w : Window) : string :=
  let path := pathname w in
  if JS.startsWith path "/en/" then JS.substring 3 path
  else if String.eqb path "/en" then "/"
  else path.

Definition buildLanguageURL (targetLang : string) (w : Window) : string :=
  let relativePath := getRelativePath w in
  let hash := hash w in
  if String.eqb targetLang "en" then
    let enPath :=
      "/en" +:+ (if String.eqb relativePath "/" then "/" else relativePath) in
    enPath +:+ hash
  else
    relativePath +:+ hash.

(** [LANGUAGES.includes(targetLang)] *)
Definition supported (lang : string) : bool :=
  existsb (String.eqb lang) LANGUAGES.

Definition switchLanguage (targetLang : string) (w : Window) : Window :=
  if negb (supported targetLang) then
    warn ("Unsupported language: " +:+ targetLang) w
  else
    let w1 := saveLanguage targetLang w in
    let targetURL := buildLanguageURL targetLang w1 in
    let currentPath := pathname w1 +:+ hash w1 in
    if negb (String.eqb targetURL currentPath)
    then request (Assign targetURL) w1
    else w1.

Definition shouldAutoRedirect (w : Window) : bool :=
  let savedLang := getSavedLanguage w in
  if JS.truthy savedLang then false
  else
    let currentLang := getLanguageFromURL w in
    let browserLang := getBrowserLanguage w in
    String.eqb currentLang "ja" && String.eqb browserLang "en".

Definition handleAutoRedirect (w : Window) : bool * Window :=
  if shouldAutoRedirect w then
    let targetURL := buildLanguageURL "en" w in
    (true, request (Replace targetURL) w)
  else (false, w).

Definition init (w : Window) : Window :=
  let '(redirecting, w1) := handleAutoRedirect w in
  if redirecting then w1
  else
    let savedLang := getSavedLanguage w1 in
    let currentLang := getLanguageFromURL w1 in
    if negb (JS.truthy savedLang) then saveLanguage currentLang w1
    else w1.

Definition getCurrentLanguage (w : Window) : string := getLanguageFromURL w.
Definition isEnglish (w : Window) : bool :=
  String.eqb (getLanguageFromURL w) "en".
Definition isJapanese (w : Window) : bool :=
  String.eqb (getLanguageFromURL w) "ja".

End i18n.

(** ** The page seen by components.js *)

(** An element matched by ['.nav-link[data-page]']. *)
Record NavLink := mkNavLink {
  data_page : string;             (* getAttribute('data-page') *)
  classList : list string;        (* the element's class tokens, in order *)
  aria_current : option string    (* the 'aria-current' attribute *)
}.

(** The part of the DOM the loader touches: the elements [querySelector]
    finds for the placeholder selectors, each with the markup last assigned
    to its [innerHTML] (placeholders are distinct elements, none inside
    another), and the navigation links of the document in document order.
    The links parsed from a placeholder's markup are elements of their own:
    what [highlightActiveNav] does to them is recorded in [navLinks], while
    [placeholders] keeps the markup as it was assigned.  So [placeholders]
    says what a placeholder received, not how the live element would
    serialize once its links have been marked. *)
Record Document := mkDocument {
  placeholders : gmap string string;
  navLinks : list NavLink
}.

(** What [fetch(url)] settles to: it rejects (transport failure), or it
    resolves to a response with a status, whose [text()] in turn resolves to
    the body or rejects (the transfer broke while the body was read). *)
Inductive FetchOutcome :=
| FetchRejected (reason : string)
| FetchResponse (status : nat) (body : Exn + string).

(** [response.ok] *)
Definition ok (status : nat) : bool :=
  ((200 <=? status) && (status <=? 299))%nat.

(** What the loader does that other code can observe, oldest first.  The
    last two constructors mark the calls of the two methods [loadAll] runs
    after its [await]. *)
Inductive Event :=
| Warned (name msg : string)                   (* console.warn *)
| Fetching (name url : string)                 (* fetch(url) issued *)
| Injected (name selector html : string)       (* placeholder.innerHTML = html *)
| ComponentLoaded (name selector : string)     (* 'componentLoaded' dispatched,
                                                  detail = { name, element } *)
| LoadFailed (name : string) (e : Exn)         (* console.error *)
| FlowbiteStep (hookCalled : bool)             (* this.initFlowbite() *)
| HighlightStep.                               (* this.highlightActiveNav() *)

(** The two steps [loadAll] runs after its [await]. *)
Definition isPostStep (e : Event) : bool :=
  match e with
  | FlowbiteStep _ | HighlightStep => true
  | _ => false
  end.

Record Page := mkPage {
  window : Window;
  document : Document;
  trace : list Event
}.

Definition emit (e : Event) (pg : Page) : Page :=
  {| window := window pg; document := document pg; trace := trace pg ++ [e] |}.

Definition with_document (d : Document) (pg : Page) : Page :=
  {| window := window pg; document := d; trace := trace pg |}.

(** [document.querySelector(selector)]: the placeholder element, named by
    its selector, or [null]. *)
Definition querySelector (selector : string) (pg : Page) : option string :=
  if decide (is_Some (placeholders (document pg) !! selector))
  then Some selector else None.

(** [classList.add(token)] and [classList.remove(token)] on a token list. *)
Definition classList_add (token : string) (l : list string) : list string :=
  if existsb (String.eqb token) l then l else l ++ [token].

Definition classList_remove (token : string) (l : list string) : list string :=
  List.filter (fun t => negb (String.eqb t token)) l.

(** A promise of an [async] function: still waiting at one of its [await]s,
    or settled. *)
Inductive Promise (K : Type) :=
| Pending (k : K)
| Fulfilled
| Rejected (e : Exn).
Arguments Pending {K} k.
Arguments Fulfilled {K}.
Arguments Rejected {K} e.

(** The body of a [try] block either completes with a value or throws. *)
Definition try_catch {A : Type} (body : Exn + A) (handler : Exn → A) : A :=
  match body with
  | inr a => a
  | inl e => handler e
  end.

(** ** components.js *)

Record Component := mkComponent { selector : string; file : string }.

Section ComponentLoader.

(** The server behind [fetch]. *)
Variable fetch : string → FetchOutcome.
(** The global [initFlowbite] when [typeof initFlowbite === 'function']:
    what the library call does to the document.  The library is not part of
    the site; its call is taken to return. *)
Variable flowbite : option (Document → Document).
(** The HTML parser: the navigation links of the document once the
    placeholder [selector] has received [html]. *)
Variable render : string → string → list NavLink → list NavLink.

Definition componentsPath : string := "/components".

(** [this.components], an object literal: its own keys in insertion order. *)
Definition components : list (string * Component) :=
  [ ("header", {| selector := "#header-placeholder"; file := "header.html" |});
    ("footer", {| selector := "#footer-placeholder"; file := "footer.html" |}) ].

(** [this.components[name]] on the own properties of the object.  The
    names every object inherits (['toString'], ['constructor'],
    ['__proto__'], ...) are not in the model: there the source finds a value
    that is no component.  The properties below speak of registered names,
    the only ones [loadAll] passes. *)
Fixpoint lookup_component (name : string) (l : list (string * Component))
  : option Component :=
  match l with
  | [] => None
  | (n, c) :: l' => if String.eqb n name then Some c else lookup_component name l'
  end.

Definition isEnglishPage (pg : Page) : bool :=
  let path := pathname (window pg) in
  JS.startsWith path "/en/" || String.eqb path "/en".

Definition getComponentFile (name : string) (pg : Page) : option string :=
  match lookup_component name components with
  | None => None
  | Some component =>
      if isEnglishPage pg then
        let baseName := JS.replace (file component) ".html" "" in
        Some (baseName +:+ "-en.html")
      else Some (file component)
  end.

(** Where [loadComponent] is suspended. *)
Inductive Await :=
| AwaitFetch (name placeholder url : string)           (* await fetch(url) *)
| AwaitText (name placeholder : string) (body : Exn + string).
                                                     (* await response.text() *)

(** The [catch] block of [loadComponent]. *)
Definition catch_block (name : string) (pg : Page) (e : Exn)
  : Promise Await * Page :=
  (Fulfilled, emit (LoadFailed name e) pg).

(** [loadComponent(name)] up to its first [await]. *)
Definition loadComponent (name : string) (pg : Page) : Promise Await * Page :=
  match lookup_component name components with
  | None =>
      (Fulfilled,
       emit (Warned name ("Component " +:+ JS.quoted name +:+ " not found")) pg)
  | Some component =>
      match querySelector (selector component) pg with
      | None =>
          (Fulfilled,
           emit (Warned name
                   ("Placeholder " +:+ JS.quoted (selector component)
                    +:+ " not found")) pg)
      | Some placeholder =>
          let file := default "null" (getComponentFile name pg) in
          let url := componentsPath +:+ "/" +:+ file in
          (Pending (AwaitFetch name placeholder url), emit (Fetching name url) pg)
      end
  end.

(** [placeholder.innerHTML = html] *)
Definition set_innerHTML (name placeholder html : string) (pg : Page) : Page :=
  emit (Injected name placeholder html)
    (with_document
       {| placeholders := <[placeholder := html]> (placeholders (document pg));
          navLinks := render placeholder html (navLinks (document pg)) |} pg).

(** [loadComponent] from one [await] to the next, inside its [try]. *)
Definition resume (a : Await) (pg : Page) : Promise Await * Page :=
  match a with
  | AwaitFetch name placeholder url =>
      try_catch
        match fetch url with
        | FetchRejected reason => inl (NetworkFailure reason)
        | FetchResponse status body =>
            if negb (ok status) then inl (HttpError status)
            else inr (Pending (AwaitText name placeholder body), pg)
        end
        (catch_block name pg)
  | AwaitText name placeholder body =>
      try_catch
        match body with
        | inl e => inl e
        | inr html =>
            let pg1 := set_innerHTML name placeholder html pg in
            inr (Fulfilled, emit (ComponentLoaded name placeholder) pg1)
        end
        (catch_block name pg)
  end.

(** A promise moves when what it awaits settles. *)
Definition advance (p : Promise Await) (pg : Page) : Promise Await * Page :=
  match p with
  | Pending a => resume a pg
  | _ => (p, pg)
  end.

(** [loadComponent(name)] alone, run until its promise settles. *)
Definition loadComponent_settled (name : string) (pg : Page)
  : Promise Await * Page :=
  let '(p0, pg0) := loadComponent name pg in
  let '(p1, pg1) := advance p0 pg0 in
  advance p1 pg1.

(** [initFlowbite()] of the class. *)
Definition initFlowbite (pg : Page) : Page :=
  match flowbite with
  | Some hook => emit (FlowbiteStep true) (with_document (hook (document pg)) pg)
  | None => emit (FlowbiteStep false) pg
  end.

(** The path [highlightActiveNav] compares with. *)
Definition normalizedPath (pg : Page) : string :=
  let currentPath := pathname (window pg) in
  let isEnglish := isEnglishPage pg in
  if isEnglish then
    let stripped := JS.replaceAtStart currentPath "/en" "" in
    if JS.truthy (Some stripped) then stripped else "/"
  else currentPath.

(** The value of [isActive] at the end of the callback's two tests. *)
Definition isActive (currentPath page : string) : bool :=
  if String.eqb page "home" &&
     (String.eqb currentPath "/" || String.eqb currentPath "/index.html")
  then true
  else if JS.truthy (Some page) &&
          JS.includes currentPath ("/pages/" +:+ page +:+ "/")
  then true
  else false.

Definition markActive (link : NavLink) : NavLink :=
  {| data_page := data_page link;
     classList :=
       classList_remove "text-gray-900"
         (classList_add "md:text-blue-600"
            (classList_add "text-blue-600" (classList link)));
     aria_current := Some "page" |}.

(** The callback of [navLinks.forEach]. *)
Definition highlightLink (currentPath : string) (link : NavLink) : NavLink :=
  if isActive currentPath (data_page link) then markActive link else link.

Definition highlightActiveNav (pg : Page) : Page :=
  let currentPath := normalizedPath pg in
  emit HighlightStep
    (with_document
       {| placeholders := placeholders (document pg);
          navLinks := map (highlightLink currentPath) (navLinks (document pg)) |}
       pg).

(** *** [loadAll] on the event loop *)

Inductive Main := AwaitingAll | Completed | Failed (e : Exn).

Record LoadAll := mkLoadAll {
  promises : list (Promise Await);
  main : Main;
  page : Page
}.

(** [Object.keys(this.components).map(name => this.loadComponent(name))]:
    the synchronous parts run one after the other, in key order. *)
Fixpoint start_all (names : list string) (pg : Page)
  : list (Promise Await) * Page :=
  match names with
  | [] => ([], pg)
  | name :: rest =>
      let '(p, pg1) := loadComponent name pg in
      let '(ps, pg2) := start_all rest pg1 in
      (p :: ps, pg2)
  end.

(** [Promise.all]: rejected with the first rejection, fulfilled once every
    promise is, pending otherwise. *)
Fixpoint promise_all (ps : list (Promise Await)) : Promise unit :=
  match ps with
  | [] => Fulfilled
  | Rejected e :: _ => Rejected e
  | Fulfilled :: rest => promise_all rest
  | Pending _ :: rest =>
      match promise_all rest with
      | Rejected e => Rejected e
      | _ => Pending tt
      end
  end.

(** The rest of [loadAll] after [await Promise.all(promises)]. *)
Definition after_all (pg : Page) : Page :=
  highlightActiveNav (initFlowbite pg).

(** [loadAll] continues as soon as [Promise.all] has settled. *)
Definition continue (s : LoadAll) : LoadAll :=
  match main s with
  | AwaitingAll =>
      match promise_all (promises s) with
      | Fulfilled =>
          {| promises := promises s; main := Completed;
             page := after_all (page s) |}
      | Rejected e =>
          {| promises := promises s; main := Failed e; page := page s |}
      | Pending _ => s
      end
  | _ => s
  end.

(** One turn of the event loop: what promise [i] awaits has settled. *)
Definition deliver (i : nat) (s : LoadAll) : LoadAll :=
  match promises s !! i with
  | Some p =>
      let '(p', pg') := advance p (page s) in
      {| promises := <[i := p']> (promises s); main := main s; page := pg' |}
  | None => s
  end.

Definition turn (s : LoadAll) (i : nat) : LoadAll := continue (deliver i s).

(** [loadAll()], with the order in which the network answers given as the
    list of promise indices served, one per turn. *)
Definition loadAll (schedule : list nat) (pg : Page) : LoadAll :=
  let '(ps, pg1) := start_all (map fst components) pg in
  fold_left turn schedule
    (continue {| promises := ps; main := AwaitingAll; page := pg1 |}).

(** The first two lines of [loadAll] alone: the components started and
    served in the order of [schedule], without what [loadAll] does after its
    [await].  Its page is the page the two steps find when they start. *)
Definition awaitAll (schedule : list nat) (pg : Page) : LoadAll :=
  let '(ps, pg1) := start_all (map fst components) pg in
  fold_left (λ s i, deliver i s) schedule
    {| promises := ps; main := AwaitingAll; page := pg1 |}.

(** *** What one turn does, read off [resume] *)

(** The promise after the turn. *)
Definition next (p : Promise Await) : Promise Await :=
  match p with
  | Pending (AwaitFetch name placeholder url) =>
      match fetch url with
      | FetchRejected _ => Fulfilled
      | FetchResponse status body =>
          if negb (ok status) then Fulfilled
          else Pending (AwaitText name placeholder body)
      end
  | Pending (AwaitText _ _ _) => Fulfilled
  | _ => p
  end.

(** The events of the turn. *)
Definition events_of (p : Promise Await) : list Event :=
  match p with
  | Pending (AwaitFetch name placeholder url) =>
      match fetch url with
      | FetchRejected reason => [LoadFailed name (NetworkFailure reason)]
      | FetchResponse status body =>
          if negb (ok status) then [LoadFailed name (HttpError status)] else []
      end
  | Pending (AwaitText name placeholder (inl e)) => [LoadFailed name e]
  | Pending (AwaitText name placeholder (inr html)) =>
      [Injected name placeholder html; ComponentLoaded name placeholder]
  | _ => []
  end.

(** The markup a fetch delivers, if it succeeds: the response is [ok] and
    its body arrives. *)
Definition fetched (url : string) : option string :=
  match fetch url with
  | FetchResponse status (inr html) => if ok status then Some html else None
  | _ => None
  end.

(** The URL [loadComponent(name)] fetches on page [pg]. *)
Definition componentURL (name : string) (pg : Page) : string :=
  componentsPath +:+ "/" +:+ default "null" (getComponentFile name pg).

(** *** The invariant of the event loop *)

(** The events of the two steps after the [await]. *)
Definition postSteps : list Event :=
  [FlowbiteStep (match flowbite with Some _ => true | None => false end);
   HighlightStep].

Definition notRejected (p : Promise Await) : Prop := ∀ e, p ≠ Rejected e.

(** After the turns of [schedule], from the promises [ps0] the components
    started with and the trace [t0] the page had before [loadAll]: no
    promise is rejected; promise [i] has made as many turns as [schedule]
    names it; the trace is [t0], then events of the components only (all
    those of the turns made), then, once [loadAll] has completed and not
    before every promise is fulfilled, the two steps. *)
Record LoopInvariant (t0 : list Event) (ps0 : list (Promise Await))
    (schedule : list nat) (s : LoadAll) (evs : list Event) : Prop := {
  inv_not_rejected : Forall notRejected (promises s);
  inv_promises : ∀ i : nat,
    promises s !! i
    = Nat.iter (count_occ Nat.eq_dec schedule i) next <$> (ps0 !! i);
  inv_components : Forall (λ e, isPostStep e = false) evs;
  inv_turns : ∀ (i j : nat) (p0 : Promise Await) (e : Event),
    ps0 !! i = Some p0 →
    j < count_occ Nat.eq_dec schedule i →
    In e (events_of (Nat.iter j next p0)) → In e evs;
  inv_main :
    (main s = AwaitingAll ∧ promise_all (promises s) = Pending tt ∧
     trace (page s) = (t0 ++ evs)%list) ∨
    (main s = Completed ∧ promise_all (promises s) = Fulfilled ∧
     trace (page s) = (t0 ++ evs ++ postSteps)%list)
}.

(** *** Where the markup in the placeholders comes from *)

(** A promise in flight belongs to a registered component of the page
    [pg0] that [loadAll] was called on: it waits for its fragment, or for
    the body of an [ok] response to it. *)
Definition inFlight (pg0 : Page) (p : Promise Await) : Prop :=
  match p with
  | Pending (AwaitFetch name placeholder url) =>
      ∃ c, lookup_component name components = Some c ∧
           placeholder = selector c ∧ url = componentURL name pg0
  | Pending (AwaitText name placeholder body) =>
      ∃ c status, lookup_component name components = Some c ∧
                  placeholder = selector c ∧
                  fetch (componentURL name pg0) = FetchResponse status body ∧
                  ok status = true
  | _ => True
  end.

(** An injection is accounted for when it puts the fetched markup of a
    registered component into that component's placeholder. *)
Definition accounted (pg0 : Page) (e : Event) : Prop :=
  match e with
  | Injected name placeholder html =>
      ∃ c, lookup_component name components = Some c ∧
           placeholder = selector c ∧
           fetched (componentURL name pg0) = Some html
  | _ => True
  end.

End ComponentLoader.


(** The placeholders after the injections of a trace, in order. *)
Definition applyEvent (m : gmap string string) (e : Event) : gmap string string :=
  match e with
  | Injected _ placeholder html => <[placeholder := html]> m
  | _ => m
  end.

Definition replay (evs : list Event) (m : gmap string string)
  : gmap string string :=
  fold_left applyEvent evs m.

(** The navigation links after the events of a trace, in order: an
    injection parses the markup, the highlight step marks the links of
    [path]. *)
Definition applyLinks (render : string → string → list NavLink → list NavLink)
    (path : string) (links : list NavLink) (e : Event) : list NavLink :=
  match e with
  | Injected _ placeholder html => render placeholder html links
  | HighlightStep => map (highlightLink path) links
  | _ => links
  end.

Definition replayLinks (render : string → string → list NavLink → list NavLink)
    (path : string) (evs : list Event) (links : list NavLink) : list NavLink :=
  fold_left (applyLinks render path) evs links.

Definition isFetching (e : Event) : bool :=
  match e with
  | Fetching _ _ => true
  | _ => false
  end.

(** ** The loader before the site had two languages *)

(** The earlier revision of components.js.  Its [loadComponent] fetches
    [component.file] as it is and its [highlightActiveNav] compares with the
    path as it is; the constructor, the [try] block, [loadAll],
    [initFlowbite] and the callback of [forEach] are those of the current
    revision. *)
Module Legacy.

Definition loadComponent (name : string) (pg : Page) : Promise Await * Page :=
  match lookup_component name components with
  | None =>
      (Fulfilled,
       emit (Warned name ("Component " +:+ JS.quoted name +:+ " not found")) pg)
  | Some component =>
      match querySelector (selector component) pg with
      | None =>
          (Fulfilled,
           emit (Warned name
                   ("Placeholder " +:+ JS.quoted (selector component)
                    +:+ " not found")) pg)
      | Some placeholder =>
          let url := componentsPath +:+ "/" +:+ file component in
          (Pending (AwaitFetch name placeholder url), emit (Fetching name url) pg)
      end
  end.

Definition highlightActiveNav (pg : Page) : Page :=
  let currentPath := pathname (window pg) in
  emit HighlightStep
    (with_document
       {| placeholders := placeholders (document pg);
          navLinks := map (highlightLink currentPath) (navLinks (document pg)) |}
       pg).

End Legacy.

(** ** Sample states *)

Definition emptyStorage : Storage :=
  {| mode := Available; items := ∅; journal := [] |}.

(** A first visit to [path] with browser language [lang]. *)
Definition firstVisit (path : string) (lang : option string) : Window :=
  {| pathname := path; hash := ""; localStorage := emptyStorage;
     language := lang; userLanguage := None;
     warnings := []; navigation := [] |}.

(** A later visit: the preference [pref] is in storage. *)
Definition returningVisit (path pref : string) (lang : option string) : Window :=
  {| pathname := path; hash := "";
     localStorage := {| mode := Available;
                        items := {[ i18n.STORAGE_KEY := pref ]};
                        journal := [] |};
     language := lang; userLanguage := None;
     warnings := []; navigation := [] |}.

(** The path of a URL reference that begins with a path: everything before
    the first ['?'] or ['#'] (how the browser splits it when it loads it). *)
Fixpoint urlPathname (url : string) : string :=
  match url with
  | EmptyString => EmptyString
  | String c rest =>
      if Ascii.eqb c "?" || Ascii.eqb c "#" then EmptyString
      else String c (urlPathname rest)
  end.

(** The stored preference, when there is one, is a supported locale code
    (the only values [saveLanguage] is ever called with). *)
Definition validPreference (w : Window) : Prop :=
  ∀ v, i18n.getSavedLanguage w = Some v → In v i18n.LANGUAGES.

(** A page at [path] with both placeholders empty and the given links. *)
Definition samplePage (path : string) (links : list NavLink) : Page :=
  {| window := firstVisit path None;
     document :=
       {| placeholders :=
            {[ "#header-placeholder" := ""; "#footer-placeholder" := "" ]};
          navLinks := links |};
     trace := [] |}.

Definition sampleLink (page : string) : NavLink :=
  {| data_page := page;
     classList := ["nav-link"; "text-gray-900"];
     aria_current := None |}.

(** A server without the header fragment: 404 for it, 200 for the rest. *)
Definition headerMissing (url : string) : FetchOutcome :=
  if String.eqb url "/components/header.html"
  then FetchResponse 404 (inr "Not Found")
  else FetchResponse 200 (inr "<footer></footer>").

(** A parser that finds no navigation links in the fragments. *)
Definition noLinks (_ _ : string) (links : list NavLink) : list NavLink := links.

(** A server with every fragment, and a parser for which the header holds
    the two navigation links of the site. *)
Definition allOk (url : string) : FetchOutcome :=
  FetchResponse 200 (inr ("<!-- " +:+ url +:+ " -->")).

Definition headerLinks (placeholder _ : string) (links : list NavLink)
  : list NavLink :=
  if String.eqb placeholder "#header-placeholder"
  then [sampleLink "home"; sampleLink "about"]
  else links.

(** A hook that tags every navigation link it finds. *)
Definition sampleHook (d : Document) : Document :=
  {| placeholders := placeholders d;
     navLinks :=
       map (λ link, {| data_page := data_page link;
                       classList := classList_add "flowbite" (classList link);
                       aria_current := aria_current link |})
           (navLinks d) |}.

(** * Properties *)

(** ** Strings *)

Lemma append_nil (q : string) : "" +:+ q = q.
Proof. reflexivity. Qed.

Lemma append_cons c (p q : string) : String c p +:+ q = String c (p +:+ q).
Proof. reflexivity. Qed.

Lemma startsWith_app s p q :
  JS.startsWith s (p +:+ q) =
  JS.startsWith s p && JS.startsWith (JS.substring (String.length p) s) q.
Proof.
  revert s; induction p as [|c p IH]; intros s.
  - by rewrite append_nil.
  - rewrite append_cons. destruct s as [|d s]; simpl; [done|].
    destruct (Ascii.eqb d c); [apply IH | done].
Qed.

Lemma startsWith_decomp s p :
  JS.startsWith s p = true → s = p +:+ JS.substring (String.length p) s.
Proof.
  revert s; induction p as [|c p IH]; intros s; simpl; [done|].
  destruct s as [|d s]; [done|].
  destruct (Ascii.eqb_spec d c) as [->|]; [|done].
  intros H. rewrite append_cons. f_equal. by apply IH.
Qed.

Lemma startsWith_shorter s p q :
  JS.startsWith s (p +:+ q) = true → JS.startsWith s p = true.
Proof. rewrite startsWith_app. by intros [? _]%andb_true_iff. Qed.

Lemma urlPathname_keeps_en s :
  JS.startsWith s "/en/" = true → JS.startsWith (urlPathname s) "/en/" = true.
Proof.
  intros H. rewrite (startsWith_decomp _ _ H). reflexivity.
Qed.

(** ** Locale resolution *)

Section LocaleFacts.

Import i18n.

Lemma getLanguageFromURL_cases w :
  getLanguageFromURL w = "en" ∨ getLanguageFromURL w = "ja".
Proof. unfold getLanguageFromURL. destruct (_ || _); auto. Qed.

Lemma getLanguageFromURL_en w :
  getLanguageFromURL w = "en" ↔
  JS.startsWith (pathname w) "/en/" = true ∨ pathname w = "/en".
Proof.
  unfold getLanguageFromURL.
  destruct (JS.startsWith (pathname w) "/en/") eqn:Hp; simpl.
  - split; auto.
  - destruct (String.eqb_spec (pathname w) "/en") as [->|Hne].
    + split; auto.
    + split; [done | intros [?|?]; done].
Qed.

Lemma getLanguageFromURL_supported w : In (getLanguageFromURL w) LANGUAGES.
Proof.
  destruct (getLanguageFromURL_cases w) as [-> | ->]; simpl; auto.
Qed.

Lemma getBrowserLanguage_cases w :
  getBrowserLanguage w = "en" ∨ getBrowserLanguage w = "ja".
Proof. unfold getBrowserLanguage. destruct (_ && _); auto. Qed.

Lemma supported_In lang : supported lang = true ↔ In lang LANGUAGES.
Proof.
  unfold supported, LANGUAGES. simpl. rewrite !orb_true_iff, !String.eqb_eq.
  split; [intros [->|[->|?]] | intros [<-|[<-|[]]]]; auto; done.
Qed.

Lemma truthy_supported v : In v LANGUAGES → JS.truthy (Some v) = true.
Proof. intros [<-|[<-|[]]]; reflexivity. Qed.

(** With a valid store, a preference is present exactly when the value read
    back is truthy: the test [if (savedLang)] of the source. *)
Lemma truthy_getSavedLanguage w :
  validPreference w →
  JS.truthy (getSavedLanguage w) = true ↔ is_Some (getSavedLanguage w).
Proof.
  intros Hv. destruct (getSavedLanguage w) as [v|] eqn:E.
  - split; [eauto | intros _; apply truthy_supported, Hv; done].
  - split; [done | by intros [? ?]].
Qed.

(** Any stored string but the empty one stops the redirect. *)
Lemma shouldAutoRedirect_stored w v :
  getSavedLanguage w = Some v → v ≠ "" → shouldAutoRedirect w = false.
Proof.
  intros Hs Hv. unfold shouldAutoRedirect. rewrite Hs. cbn.
  by destruct (String.eqb_spec v "").
Qed.

(** The one way the truthiness test and presence differ: an empty string
    under the key, which the site itself never stores. *)
Remark empty_string_is_no_preference :
  getSavedLanguage (returningVisit "/" "" (Some "en")) = Some "" ∧
  shouldAutoRedirect (returningVisit "/" "" (Some "en")) = true.
Proof. split; reflexivity. Qed.

(** [saveLanguage] changes nothing but the store. *)
Lemma saveLanguage_location lang w :
  pathname (saveLanguage lang w) = pathname w ∧
  hash (saveLanguage lang w) = hash w ∧
  navigation (saveLanguage lang w) = navigation w ∧
  warnings (saveLanguage lang w) = warnings w.
Proof. unfold saveLanguage. by destruct (setItem _ _ _). Qed.

Lemma buildLanguageURL_saveLanguage target lang w :
  buildLanguageURL target (saveLanguage lang w) = buildLanguageURL target w.
Proof.
  unfold buildLanguageURL, getRelativePath.
  destruct (saveLanguage_location lang w) as (-> & -> & _). done.
Qed.

Lemma saveLanguage_available lang w :
  mode (localStorage w) = Available →
  getSavedLanguage (saveLanguage lang w) = Some lang.
Proof.
  intros Hm. unfold saveLanguage, getSavedLanguage, setItem, getItem.
  rewrite Hm. simpl. by rewrite lookup_insert_eq.
Qed.

(** The store stays valid under everything the module does to it. *)
Lemma saveLanguage_valid lang w :
  In lang LANGUAGES → validPreference w → validPreference (saveLanguage lang w).
Proof.
  intros Hl Hv v. unfold saveLanguage, setItem.
  destruct (mode (localStorage w)) eqn:Hm; simpl; try apply Hv.
  unfold getSavedLanguage, getItem. simpl.
  rewrite lookup_insert_eq. by intros [= <-].
Qed.

End LocaleFacts.

(** ** The redirect decision *)

Section Redirect.

Import i18n.

(** C1. Truth table of [shouldAutoRedirect]: over every state of the
    persisted preference (absent, or present with a supported locale code),
    every path and every browser language, the function returns [true]
    exactly when no preference is persisted, the path resolves to the
    default locale ['ja'] and the browser locale is ['en']; the other seven
    of the eight combinations give [false], and so does every state with a
    persisted preference. *)
Theorem shouldAutoRedirect_truth_table (w : Window) :
  validPreference w →
  (shouldAutoRedirect w = true ↔
     getSavedLanguage w = None ∧
     getLanguageFromURL w = DEFAULT_LANGUAGE ∧
     getBrowserLanguage w = "en") ∧
  (shouldAutoRedirect w = false ↔
     is_Some (getSavedLanguage w) ∨
     getLanguageFromURL w = "en" ∨
     getBrowserLanguage w = DEFAULT_LANGUAGE) ∧
  (is_Some (getSavedLanguage w) → shouldAutoRedirect w = false).
Proof.
  intros Hv. pose proof (truthy_getSavedLanguage w Hv) as Ht.
  unfold shouldAutoRedirect, DEFAULT_LANGUAGE.
  destruct (getSavedLanguage w) as [v|] eqn:Es.
  - assert (JS.truthy (Some v) = true) as -> by (apply Ht; eauto).
    repeat split; try done; eauto. by intros (? & _).
  - simpl.
    destruct (getLanguageFromURL_cases w) as [-> | ->],
             (getBrowserLanguage_cases w) as [-> | ->]; simpl;
      repeat split; try done; auto;
      try (by intros [[? ?]|[?|?]]); try (by intros [? ?]);
      by intros (_ & ? & ?).
Qed.

Lemma shouldAutoRedirect_truth_table_witness :
  validPreference (firstVisit "/" (Some "en-US")) ∧
  shouldAutoRedirect (firstVisit "/" (Some "en-US")) = true.
Proof.
  assert (validPreference (firstVisit "/" (Some "en-US"))) as Hv
    by (intros v; vm_compute; discriminate).
  split; [exact Hv|].
  destruct (shouldAutoRedirect_truth_table _ Hv) as [[_ H] _].
  apply H. vm_compute. auto.
Defined.

(** ** Building URLs *)

(** The relative path is itself under the ['/en'] prefix exactly for the
    doubly prefixed paths. *)
Lemma getRelativePath_en w :
  getLanguageFromURL (with_pathname (getRelativePath w) w) = "en" ↔
  JS.startsWith (pathname w) "/en/en/" = true ∨ pathname w = "/en/en".
Proof.
  rewrite getLanguageFromURL_en. unfold getRelativePath.
  cbn [pathname with_pathname].
  change "/en/en/" with ("/en" +:+ "/en/"). rewrite startsWith_app.
  change (String.length "/en") with 3.
  destruct (JS.startsWith (pathname w) "/en/") eqn:Hp.
  - pose proof (startsWith_shorter _ "/en" "/" Hp) as Hp3.
    rewrite Hp3. cbn [andb]. split; (intros [H|H]; [by left | right]).
    + rewrite (startsWith_decomp _ _ Hp3).
      change (String.length "/en") with 3. by rewrite H.
    + rewrite H. reflexivity.
  - destruct (String.eqb_spec (pathname w) "/en") as [E|Hne].
    + rewrite E. split; intros [?|?]; done.
    + split.
      * intros [H|H]; [congruence | done].
      * intros [[H3 H]%andb_true_iff | H]; [|rewrite H in Hp; done].
        exfalso. apply startsWith_decomp in H3, H.
        change (String.length "/en") with 3 in H3.
        rewrite H3, H in Hp. done.
Qed.

Lemma append_empty_r (s : string) : s +:+ "" = s.
Proof. induction s as [|c s IH]; [done|]. rewrite append_cons. by f_equal. Qed.

Lemma getRelativePath_slash w :
  JS.startsWith (pathname w) "/" = true →
  JS.startsWith (getRelativePath w) "/" = true.
Proof.
  intros Hs. unfold getRelativePath.
  destruct (JS.startsWith (pathname w) "/en/") eqn:Hp.
  - rewrite (startsWith_decomp _ _ Hp). reflexivity.
  - by destruct (String.eqb (pathname w) "/en").
Qed.

(** The English URL of a path that begins with ['/'] is under ['/en/']. *)
Lemma buildLanguageURL_en_prefix w :
  JS.startsWith (pathname w) "/" = true →
  JS.startsWith (buildLanguageURL "en" w) "/en/" = true.
Proof.
  intros Hs%getRelativePath_slash. unfold buildLanguageURL.
  change (String.eqb "en" "en") with true. cbv iota.
  destruct (String.eqb (getRelativePath w) "/"); [reflexivity|].
  rewrite (startsWith_decomp _ _ Hs). reflexivity.
Qed.

(** C2, as the code has it.  For every supported locale [L] and every path
    that begins with ['/'] and is not doubly prefixed (it is not ['/en/en']
    and does not begin with ['/en/en/']), the locale resolved from the URL
    built for [L] with an empty hash is [L]. *)
Theorem buildLanguageURL_roundtrip (L : string) (w : Window) :
  In L LANGUAGES →
  hash w = "" →
  JS.startsWith (pathname w) "/" = true →
  JS.startsWith (pathname w) "/en/en/" = false →
  pathname w ≠ "/en/en" →
  getLanguageFromURL (with_pathname (buildLanguageURL L w) w) = L.
Proof.
  intros HL Hh Hs Hd1 Hd2. destruct HL as [<-|[<-|[]]].
  - unfold buildLanguageURL. change (String.eqb "ja" "en") with false.
    cbv iota. rewrite Hh, append_empty_r.
    destruct (getLanguageFromURL_cases (with_pathname (getRelativePath w) w))
      as [He|Hj]; [|done].
    apply getRelativePath_en in He as [He|He]; congruence.
  - apply getLanguageFromURL_en. left. cbn [pathname with_pathname].
    by apply buildLanguageURL_en_prefix.
Qed.

Lemma buildLanguageURL_roundtrip_witness :
  getLanguageFromURL
    (with_pathname (buildLanguageURL "ja" (firstVisit "/en/services/" None))
       (firstVisit "/en/services/" None)) = "ja".
Proof.
  apply (buildLanguageURL_roundtrip "ja" (firstVisit "/en/services/" None)).
  - simpl. auto.
  - reflexivity.
  - reflexivity.
  - reflexivity.
  - discriminate.
Defined.

(** C2 as stated fails: from the doubly prefixed path ['/en/en/'] the URL
    built for ['ja'] is ['/en/'], which resolves to ['en']. *)
Lemma buildLanguageURL_roundtrip_counterexample :
  In "ja" LANGUAGES ∧
  hash (firstVisit "/en/en/" None) = "" ∧
  buildLanguageURL "ja" (firstVisit "/en/en/" None) = "/en/" ∧
  getLanguageFromURL
    (with_pathname (buildLanguageURL "ja" (firstVisit "/en/en/" None))
       (firstVisit "/en/en/" None)) ≠ "ja".
Proof. repeat split; [simpl; auto | discriminate]. Qed.

(** C5. The concrete paths: ['/services/'] goes to ['/en/services/'] and
    back; the root goes to ['/en/'] (with the slash), and ['/en/'] and the
    bare ['/en'] both go back to ['/']; the bare prefix ['/en'] is the
    English root.  The hash, whatever it is, is kept at the end. *)
Theorem buildLanguageURL_examples (h : string) (st : Storage)
    (lang ulang : option string) (ws : list string) (ns : list NavRequest) :
  let at_ p := mkWindow p h st lang ulang ws ns in
  buildLanguageURL "en" (at_ "/services/") = "/en/services/" +:+ h ∧
  buildLanguageURL "ja" (at_ "/en/services/") = "/services/" +:+ h ∧
  buildLanguageURL "en" (at_ "/") = "/en/" +:+ h ∧
  buildLanguageURL "ja" (at_ "/en/") = "/" +:+ h ∧
  buildLanguageURL "ja" (at_ "/en") = "/" +:+ h ∧
  buildLanguageURL "en" (at_ "/en") = "/en/" +:+ h ∧
  getLanguageFromURL (at_ "/en") = "en" ∧
  getRelativePath (at_ "/en") = "/" ∧
  getRelativePath (at_ "/en/") = "/".
Proof. repeat split. Qed.

(** C9. [detectLanguage] is [getLanguageFromURL]: whatever the store and the
    navigator hold, the result is the locale of the path. *)
Theorem detectLanguage_is_getLanguageFromURL (w : Window) :
  detectLanguage w = getLanguageFromURL w ∧
  ∀ (st : Storage) (lang ulang : option string),
    detectLanguage
      (mkWindow (pathname w) (hash w) st lang ulang (warnings w) (navigation w))
    = getLanguageFromURL w.
Proof. split; reflexivity. Qed.

(** ** Redirecting, saving and switching *)

Lemma handleAutoRedirect_spec w :
  handleAutoRedirect w =
  if shouldAutoRedirect w
  then (true, request (Replace (buildLanguageURL "en" w)) w)
  else (false, w).
Proof. reflexivity. Qed.

Lemma shouldAutoRedirect_en w :
  getLanguageFromURL w = "en" → shouldAutoRedirect w = false.
Proof.
  intros He. unfold shouldAutoRedirect. rewrite He.
  by destruct (JS.truthy _).
Qed.

(** C10. The automatic redirect does not loop.  From a page whose path
    begins with ['/'] and resolves to ['ja'], the URL [handleAutoRedirect]
    sends the browser to has a path that resolves to ['en']; on any page at
    that path, whatever its store and browser language, [shouldAutoRedirect]
    is [false] and [handleAutoRedirect] requests nothing. *)
Theorem auto_redirect_does_not_loop (w : Window) :
  JS.startsWith (pathname w) "/" = true →
  getLanguageFromURL w = DEFAULT_LANGUAGE →
  (shouldAutoRedirect w = true →
     handleAutoRedirect w =
       (true, request (Replace (buildLanguageURL "en" w)) w)) ∧
  ∀ w' : Window,
    pathname w' = urlPathname (buildLanguageURL "en" w) →
    getLanguageFromURL w' = "en" ∧
    shouldAutoRedirect w' = false ∧
    handleAutoRedirect w' = (false, w').
Proof.
  intros Hs _. split.
  - intros Hr. by rewrite handleAutoRedirect_spec, Hr.
  - intros w' Hw'.
    assert (getLanguageFromURL w' = "en") as He.
    { apply getLanguageFromURL_en. left. rewrite Hw'.
      by apply urlPathname_keeps_en, buildLanguageURL_en_prefix. }
    pose proof (shouldAutoRedirect_en w' He) as Hf.
    by rewrite handleAutoRedirect_spec, Hf.
Qed.

Lemma auto_redirect_does_not_loop_witness :
  shouldAutoRedirect (firstVisit "/en/pages/about/" (Some "en-GB")) = false.
Proof.
  apply (auto_redirect_does_not_loop (firstVisit "/pages/about/" (Some "en-GB"))
           eq_refl eq_refl).
  reflexivity.
Defined.

(** C6. [init] and the stored preference.  A preference that is already
    stored is left as it is: [init] does not touch the store at all.  When
    [init] does change the store, no preference was stored before, the change
    is the one [setItem] of the locale resolved from the path, and no
    navigation is requested.  [handleAutoRedirect], the automatic part, never
    writes. *)
Theorem init_keeps_preference (w : Window) :
  validPreference w →
  (is_Some (getSavedLanguage w) → localStorage (init w) = localStorage w) ∧
  (localStorage (init w) ≠ localStorage w →
     getSavedLanguage w = None ∧
     setItem (localStorage w) STORAGE_KEY (getLanguageFromURL w)
       = inr (localStorage (init w)) ∧
     journal (localStorage (init w))
       = (journal (localStorage w) ++ [(STORAGE_KEY, getLanguageFromURL w)])%list ∧
     navigation (init w) = navigation w) ∧
  localStorage (handleAutoRedirect w).2 = localStorage w.
Proof.
  intros Hv. pose proof (truthy_getSavedLanguage w Hv) as Ht.
  unfold init. rewrite handleAutoRedirect_spec.
  unfold shouldAutoRedirect.
  destruct (JS.truthy (getSavedLanguage w)) eqn:Et.
  - cbn. rewrite Et. cbn. repeat split; try done.
  - assert (getSavedLanguage w = None) as Hn.
    { destruct (getSavedLanguage w) eqn:E; [|done].
      assert (false = true) by (apply Ht; eauto). done. }
    destruct (_ && _); cbn.
    + repeat split; try done.
    + rewrite Et. cbn [negb].
      split; [rewrite Hn; by intros [? ?]|]. split; [|done].
      unfold saveLanguage, setItem.
      destruct (mode (localStorage w)) eqn:Em; cbn; try done.
Qed.

Lemma init_keeps_preference_witness :
  localStorage (init (returningVisit "/" "ja" (Some "en-US")))
  = localStorage (returningVisit "/" "ja" (Some "en-US")).
Proof.
  assert (validPreference (returningVisit "/" "ja" (Some "en-US"))) as Hv
    by (intros v; vm_compute; intros [= <-]; auto).
  destruct (init_keeps_preference _ Hv) as [H _].
  apply H. vm_compute. eauto.
Defined.

(** C8. [switchLanguage].  A target outside [LANGUAGES] only adds a
    warning: the store and the navigation requests are as before.  A
    supported target is saved (the store afterwards is the one
    [saveLanguage] leaves, which holds the target whenever storage is
    available), nothing is logged, and a navigation is requested, by
    assignment to [location.href], exactly when the URL built for the target
    differs from the current path and hash. *)
Theorem switchLanguage_spec (targetLang : string) (w : Window) :
  let w' := switchLanguage targetLang w in
  let targetURL := buildLanguageURL targetLang w in
  let currentPath := pathname w +:+ hash w in
  (¬ In targetLang LANGUAGES →
     w' = warn ("Unsupported language: " +:+ targetLang) w ∧
     localStorage w' = localStorage w ∧
     navigation w' = navigation w) ∧
  (In targetLang LANGUAGES →
     localStorage w' = localStorage (saveLanguage targetLang w) ∧
     (mode (localStorage w) = Available →
        getSavedLanguage w' = Some targetLang) ∧
     warnings w' = warnings w ∧
     (targetURL ≠ currentPath →
        navigation w' = (navigation w ++ [Assign targetURL])%list) ∧
     (targetURL = currentPath → navigation w' = navigation w)).
Proof.
  cbv zeta. unfold switchLanguage. split.
  - intros Hn. destruct (supported targetLang) eqn:Es.
    + by apply supported_In in Es.
    + done.
  - intros Hs%supported_In. rewrite Hs. cbn [negb].
    rewrite buildLanguageURL_saveLanguage.
    destruct (saveLanguage_location targetLang w) as (Hp & Hh & Hnav & Hw).
    rewrite Hp, Hh.
    destruct (String.eqb_spec (buildLanguageURL targetLang w)
                (pathname w +:+ hash w)) as [E|E]; cbn [negb].
    + repeat split; try done.
      intros Hm. by apply saveLanguage_available.
    + repeat split; try done.
      * intros Hm. by apply (saveLanguage_available targetLang w).
      * intros _. cbn. by rewrite Hnav.
Qed.

Lemma switchLanguage_spec_witness :
  navigation (switchLanguage "en" (returningVisit "/services/" "ja" None))
  = [Assign "/en/services/"] ∧
  getSavedLanguage (switchLanguage "en" (returningVisit "/services/" "ja" None))
  = Some "en" ∧
  navigation (switchLanguage "fr" (returningVisit "/services/" "ja" None)) = [].
Proof.
  destruct (switchLanguage_spec "en" (returningVisit "/services/" "ja" None))
    as [_ H].
  destruct H as (_ & Hsave & _ & Hnav & _); [simpl; auto|].
  destruct (switchLanguage_spec "fr" (returningVisit "/services/" "ja" None))
    as [H _].
  destruct H as (_ & _ & Hno).
  { intros [?|[?|[]]]; discriminate. }
  split; [|split].
  - apply Hnav. discriminate.
  - apply Hsave. reflexivity.
  - exact Hno.
Defined.

(** Every write of the module keeps the store valid, so validity is an
    invariant of the pages of the site. *)
Lemma switchLanguage_valid targetLang w :
  validPreference w → validPreference (switchLanguage targetLang w).
Proof.
  intros Hv. unfold switchLanguage.
  destruct (supported targetLang) eqn:Es; cbn [negb]; [|done].
  apply supported_In in Es.
  pose proof (saveLanguage_valid targetLang w Es Hv) as Hv'.
  by destruct (negb _).
Qed.

Lemma init_valid w : validPreference w → validPreference (init w).
Proof.
  intros Hv. unfold init. rewrite handleAutoRedirect_spec.
  destruct (shouldAutoRedirect w); [done|].
  destruct (negb _); [|done].
  apply saveLanguage_valid; [apply getLanguageFromURL_supported | done].
Qed.

End Redirect.

(** ** Navigation highlighting *)

Lemma classList_add_In token l : In token (classList_add token l).
Proof.
  unfold classList_add. destruct (existsb _ l) eqn:E.
  - apply existsb_exists in E as (t & Ht & ->%String.eqb_eq). done.
  - apply in_or_app. right. by left.
Qed.

Lemma classList_add_keeps token t l : In t l → In t (classList_add token l).
Proof.
  intros Ht. unfold classList_add. destruct (existsb _ l); [done|].
  apply in_or_app. by left.
Qed.

Lemma classList_remove_In token t l :
  In t (classList_remove token l) ↔ In t l ∧ t ≠ token.
Proof.
  unfold classList_remove. rewrite filter_In, negb_true_iff, String.eqb_neq.
  done.
Qed.

Lemma markActive_active link :
  In "text-blue-600" (classList (markActive link)) ∧
  In "md:text-blue-600" (classList (markActive link)) ∧
  ¬ In "text-gray-900" (classList (markActive link)) ∧
  aria_current (markActive link) = Some "page" ∧
  data_page (markActive link) = data_page link.
Proof.
  cbn [markActive classList aria_current data_page]. repeat split.
  - apply classList_remove_In. split; [|done].
    apply classList_add_keeps, classList_add_In.
  - apply classList_remove_In. split; [|done]. apply classList_add_In.
  - rewrite classList_remove_In. by intros [_ ?].
Qed.

Lemma isActive_true currentPath page :
  isActive currentPath page = true ↔
  (page = "home" ∧ (currentPath = "/" ∨ currentPath = "/index.html")) ∨
  (page ≠ "" ∧ JS.includes currentPath ("/pages/" +:+ page +:+ "/") = true).
Proof.
  unfold isActive, JS.truthy.
  rewrite <- (String.eqb_eq page "home"), <- (String.eqb_eq currentPath "/"),
    <- (String.eqb_eq currentPath "/index.html"), <- (String.eqb_neq page "").
  rewrite <- negb_true_iff, <- orb_true_iff, <- !andb_true_iff, <- orb_true_iff.
  by destruct (_ && (_ || _)), (negb _ && JS.includes _ _).
Qed.

(** C4, as the code has it.  [highlightActiveNav] rewrites the navigation
    links one by one, in place.  A link is marked active (both blue class
    tokens present, the gray one gone, [aria-current] set to ['page'])
    when its identifier is ['home'] and the normalized path is ['/'] or
    ['/index.html'], or when its identifier is not empty and the normalized
    path contains ['/pages/<identifier>/'].  Every other link is left as it
    was.  On ['/en/pages/about/'] the link ['about'] is marked and ['home']
    is not; on ['/'] the link ['home'] is marked. *)
Theorem highlightActiveNav_spec (pg : Page) :
  let currentPath := normalizedPath pg in
  let shown (page : string) : Prop :=
    (page = "home" ∧ (currentPath = "/" ∨ currentPath = "/index.html")) ∨
    (page ≠ "" ∧ JS.includes currentPath ("/pages/" +:+ page +:+ "/") = true) in
  (∀ (i : nat) (link : NavLink),
     navLinks (document pg) !! i = Some link →
     ∃ link', navLinks (document (highlightActiveNav pg)) !! i = Some link' ∧
       (shown (data_page link) →
          link' = markActive link ∧
          In "text-blue-600" (classList link') ∧
          In "md:text-blue-600" (classList link') ∧
          ¬ In "text-gray-900" (classList link') ∧
          aria_current link' = Some "page") ∧
       (¬ shown (data_page link) → link' = link)) ∧
  length (navLinks (document (highlightActiveNav pg)))
    = length (navLinks (document pg)) ∧
  navLinks (document (highlightActiveNav
     (samplePage "/en/pages/about/" [sampleLink "home"; sampleLink "about"])))
    = [sampleLink "home"; markActive (sampleLink "about")] ∧
  navLinks (document (highlightActiveNav
     (samplePage "/" [sampleLink "home"; sampleLink "about"])))
    = [markActive (sampleLink "home"); sampleLink "about"].
Proof.
  cbv zeta. split; [|split; [|split; reflexivity]].
  - intros i link Hi. unfold highlightActiveNav. cbn [document navLinks with_document emit].
    rewrite list_lookup_fmap, Hi. cbn. eexists; split; [reflexivity|].
    unfold highlightLink. split.
    + intros Hs%isActive_true. rewrite Hs.
      destruct (markActive_active link) as (? & ? & ? & ? & _). done.
    + intros Hs. destruct (isActive _ _) eqn:E; [|done].
      by apply isActive_true in E.
  - unfold highlightActiveNav. cbn [document navLinks with_document emit].
    apply length_map.
Qed.

Lemma highlightActiveNav_spec_witness :
  navLinks (document (highlightActiveNav
     (samplePage "/en/pages/about/" [sampleLink "home"; sampleLink "about"])))
    !! 1 = Some (markActive (sampleLink "about")).
Proof.
  destruct (highlightActiveNav_spec
     (samplePage "/en/pages/about/" [sampleLink "home"; sampleLink "about"]))
    as [H _].
  destruct (H 1 (sampleLink "about") eq_refl) as (link' & Hl & Hact & _).
  rewrite Hl. f_equal. apply Hact. right. split; [discriminate | reflexivity].
Defined.

(** C4 as stated fails in two places.  On ['/index.html'] the link ['home']
    is marked although the path is not the root and holds no
    ['/pages/home/'].  A link with an empty identifier is never marked, even
    on a path that contains ['/pages//']. *)
Lemma highlightActiveNav_counterexample :
  navLinks (document (highlightActiveNav
     (samplePage "/index.html" [sampleLink "home"])))
    = [markActive (sampleLink "home")] ∧
  aria_current (markActive (sampleLink "home")) = Some "page" ∧
  normalizedPath (samplePage "/index.html" [sampleLink "home"]) ≠ "/" ∧
  JS.includes (normalizedPath (samplePage "/index.html" [sampleLink "home"]))
    ("/pages/" +:+ "home" +:+ "/") = false ∧
  navLinks (document (highlightActiveNav
     (samplePage "/pages//" [sampleLink ""])))
    = [sampleLink ""] ∧
  JS.includes (normalizedPath (samplePage "/pages//" [sampleLink ""]))
    ("/pages/" +:+ "" +:+ "/") = true.
Proof. repeat split. discriminate. Qed.

(** ** Loading one component *)

Section LoaderFacts.

Variable fetch : string → FetchOutcome.
Variable flowbite : option (Document → Document).
Variable render : string → string → list NavLink → list NavLink.

Local Abbreviation adv := (advance fetch render).
Local Abbreviation nxt := (next fetch).
Local Abbreviation evs_of := (events_of fetch).
Local Abbreviation got := (fetched fetch).

(** One turn: the promise moves to [next], the page gains [events_of], the
    window stays. *)
Lemma advance_spec (p : Promise Await) (pg : Page) :
  (adv p pg).1 = nxt p ∧
  trace (adv p pg).2 = (trace pg ++ evs_of p)%list ∧
  window (adv p pg).2 = window pg.
Proof.
  destruct p as [[name ph url|name ph [e|html]]| |e]; cbn;
    try (by rewrite ?app_nil_r).
  - destruct (fetch url) as [reason|status body]; cbn;
      [by rewrite ?app_nil_r|].
    destruct (ok status); cbn; by rewrite ?app_nil_r.
  - by rewrite <- app_assoc.
Qed.

Lemma loadComponent_start name c pg :
  lookup_component name components = Some c →
  is_Some (placeholders (document pg) !! selector c) →
  loadComponent name pg =
    (Pending (AwaitFetch name (selector c) (componentURL name pg)),
     emit (Fetching name (componentURL name pg)) pg).
Proof.
  intros Hc Hp. unfold loadComponent, querySelector. rewrite Hc.
  by rewrite decide_True.
Qed.

(** C7. [loadComponent] on a registered component whose placeholder is in
    the page.  Its promise is fulfilled in every case: nothing reaches the
    caller.  When the fetch fails (it is rejected, the status is not a
    success, or the body does not arrive) the document is unchanged and the
    failure is logged.  When it succeeds the placeholder holds the fetched
    markup and ['componentLoaded'] is dispatched with the name and the
    placeholder.  The content is replaced, and the event dispatched, exactly
    when the fetch succeeded. *)
Theorem loadComponent_outcome (name : string) (c : Component) (pg : Page) :
  lookup_component name components = Some c →
  is_Some (placeholders (document pg) !! selector c) →
  let url := componentURL name pg in
  let r := loadComponent_settled fetch render name pg in
  r.1 = Fulfilled ∧
  (got url = None →
     document r.2 = document pg ∧
     ∃ e, trace r.2 = (trace pg ++ [Fetching name url; LoadFailed name e])%list) ∧
  (∀ html, got url = Some html →
     placeholders (document r.2)
       = <[selector c := html]> (placeholders (document pg)) ∧
     navLinks (document r.2)
       = render (selector c) html (navLinks (document pg)) ∧
     trace r.2 = (trace pg ++ [Fetching name url;
                              Injected name (selector c) html;
                              ComponentLoaded name (selector c)])%list) ∧
  ∃ evs, trace r.2 = (trace pg ++ evs)%list ∧
    (In (ComponentLoaded name (selector c)) evs ↔ is_Some (got url)) ∧
    ((∃ html, In (Injected name (selector c) html) evs) ↔ is_Some (got url)).
Proof.
  intros Hc Hp. cbv zeta. unfold loadComponent_settled.
  rewrite (loadComponent_start name c pg Hc Hp).
  set (url := componentURL name pg). unfold fetched.
  cbn [advance resume].
  destruct (fetch url) as [reason|status [e|html]] eqn:Ef; cbn;
    [|destruct (ok status); cbn..]; rewrite <- ?app_assoc; cbn [app].
  all: try (split; [reflexivity|];
            split; [intros _; split; [reflexivity | eexists; reflexivity]|];
            split; [intros ? [=]|];
            eexists; split; [reflexivity|];
            split; (split; [intros H | by intros [? ?]]);
            [destruct H as [?|[?|[]]]; done
            |destruct H as (? & [?|[?|[]]]); done]).
  split; [reflexivity|]. split; [done|].
  split; [by intros h [= <-]|].
  eexists; split; [reflexivity|]. split; split; eauto.
  - intros _. right; right; by left.
  - intros _. exists html. right; by left.
Qed.

(** ** The event loop of [loadAll] *)

Local Abbreviation notRej := notRejected.
Local Abbreviation posts := (postSteps flowbite).

Lemma next_notRejected p : notRejected p → notRejected (nxt p).
Proof.
  intros Hp. destruct p as [[name ph url|name ph body]| |e]; cbn; try done.
  destruct (fetch url) as [reason|status body]; [done|].
  by destruct (negb (ok status)).
Qed.

Lemma next_twice p : notRejected p → nxt (nxt p) = Fulfilled.
Proof.
  intros Hp. destruct p as [[name ph url|name ph body]| |e]; cbn; try done.
  - destruct (fetch url) as [reason|status body]; [done|].
    by destruct (negb (ok status)).
  - by destruct (Hp e).
Qed.

Lemma iter_next_settled k p :
  notRejected p → (2 ≤ k)%nat → Nat.iter k nxt p = Fulfilled.
Proof.
  intros Hp Hk. replace k with ((k - 2) + 2)%nat by lia.
  rewrite Nat.iter_add. change (Nat.iter 2 nxt p) with (nxt (nxt p)).
  rewrite (next_twice p Hp).
  induction (k - 2)%nat as [|n IH]; [done|]. by rewrite Nat.iter_succ, IH.
Qed.

Lemma events_of_components p : Forall (λ e, isPostStep e = false) (evs_of p).
Proof.
  destruct p as [[name ph url|name ph [e|html]]| |e]; cbn;
    repeat constructor.
  destruct (fetch url) as [reason|status body]; [repeat constructor|].
  destruct (negb (ok status)); repeat constructor.
Qed.

Lemma promise_all_Fulfilled ps :
  promise_all ps = Fulfilled ↔ Forall (λ p, p = Fulfilled) ps.
Proof.
  induction ps as [|[a| |e] ps IH]; cbn.
  - split; [constructor | done].
  - split; [by destruct (promise_all ps) | by inversion 1].
  - rewrite IH. split; [by constructor | by inversion 1].
  - split; [done | by inversion 1].
Qed.

Lemma promise_all_Rejected ps e :
  promise_all ps = Rejected e → ¬ Forall notRejected ps.
Proof.
  induction ps as [|[a| |e'] ps IH]; cbn; [done|..].
  - destruct (promise_all ps) eqn:E; try done.
    intros [= <-] Hf. inversion Hf; subst. by apply IH.
  - intros H Hf. inversion Hf; subst. by apply IH.
  - intros _ Hf. inversion Hf as [|? ? Hr]; subst. by destruct (Hr e').
Qed.

Lemma after_all_trace pg :
  trace (after_all flowbite pg) = (trace pg ++ posts)%list.
Proof.
  unfold after_all, highlightActiveNav, initFlowbite, postSteps.
  destruct flowbite; cbn; by rewrite <- app_assoc.
Qed.

(** What [continue] does while [loadAll] still waits. *)
Lemma continue_awaiting (s : LoadAll) :
  main s = AwaitingAll →
  Forall notRejected (promises s) →
  promises (continue flowbite s) = promises s ∧
  ((main (continue flowbite s) = AwaitingAll ∧
    promise_all (promises s) = Pending tt ∧
    page (continue flowbite s) = page s) ∨
   (main (continue flowbite s) = Completed ∧
    promise_all (promises s) = Fulfilled ∧
    page (continue flowbite s) = after_all flowbite (page s))).
Proof.
  intros Hm Hr. unfold continue. rewrite Hm.
  destruct (promise_all (promises s)) as [[]| |e] eqn:E; cbn.
  - split; [done|]. left. by rewrite Hm.
  - split; [done|]. by right.
  - by apply promise_all_Rejected in E.
Qed.

Lemma continue_settled (s : LoadAll) :
  main s ≠ AwaitingAll → continue flowbite s = s.
Proof. unfold continue. by destruct (main s). Qed.

Lemma count_snoc (schedule : list nat) (i j : nat) :
  count_occ Nat.eq_dec (schedule ++ [i]) j
  = (count_occ Nat.eq_dec schedule j + (if decide (i = j) then 1 else 0))%nat.
Proof.
  rewrite count_occ_app. cbn. by destruct (Nat.eq_dec i j), (decide (i = j)).
Qed.

Local Abbreviation Inv := (LoopInvariant fetch flowbite).

(** A turn for an index that names no promise changes nothing. *)
Lemma turn_out_of_range t0 ps0 schedule s evs i :
  Inv t0 ps0 schedule s evs →
  promises s !! i = None →
  Inv t0 ps0 (schedule ++ [i]) (turn fetch flowbite render s i) evs.
Proof.
  intros [Hr Hp Hc Ht Hm] Hi.
  assert (ps0 !! i = None) as Hi0.
  { specialize (Hp i). rewrite Hi in Hp. by destruct (ps0 !! i). }
  assert (turn fetch flowbite render s i = s) as ->.
  { unfold turn, deliver. rewrite Hi.
    destruct Hm as [(Hm & Ha & _)|(Hm & _)].
    - unfold continue. by rewrite Hm, Ha.
    - apply continue_settled. by rewrite Hm. }
  split; try done.
  - intros j. rewrite count_snoc. destruct (decide (i = j)) as [<-|Hne].
    + by rewrite Hi, Hi0.
    + by rewrite Nat.add_0_r.
  - intros j k p0 e Hj. rewrite count_snoc.
    destruct (decide (i = j)) as [<-|Hne]; [congruence|].
    rewrite Nat.add_0_r. by apply Ht.
Qed.

(** A turn for a promise: the invariant holds again, with the events of the
    turn added. *)
Lemma turn_in_range t0 ps0 schedule s evs i p :
  Inv t0 ps0 schedule s evs →
  promises s !! i = Some p →
  Inv t0 ps0 (schedule ++ [i]) (turn fetch flowbite render s i)
    (evs ++ evs_of p).
Proof.
  intros [Hr Hp Hc Ht Hm] Hi.
  assert (notRejected p) as Hnr by (by eapply Forall_lookup_1 in Hr).
  assert (∃ p0, ps0 !! i = Some p0 ∧
                p = Nat.iter (count_occ Nat.eq_dec schedule i) nxt p0)
    as (p0 & Hi0 & Hp0).
  { specialize (Hp i). rewrite Hi in Hp.
    destruct (ps0 !! i) as [p0|]; [|done]. exists p0. by injection Hp. }
  destruct (advance_spec p (page s)) as (Hn & Htr & _).
  unfold turn, deliver. rewrite Hi.
  destruct (adv p (page s)) as [p' pg'] eqn:Ea. cbn [fst snd] in Hn, Htr.
  subst p'.
  set (s1 := {| promises := <[i:=nxt p]> (promises s); main := main s;
                page := pg' |}).
  assert (Forall notRejected (promises s1)) as Hr1.
  { cbn. apply Forall_insert; [done | by apply next_notRejected]. }
  assert (∀ j, promises s1 !! j
               = Nat.iter (count_occ Nat.eq_dec (schedule ++ [i]) j) nxt
                   <$> ps0 !! j) as Hp1.
  { intros j. cbn. rewrite count_snoc. destruct (decide (i = j)) as [<-|Hne].
    - rewrite list_lookup_insert_eq by (by eapply lookup_lt_Some).
      rewrite Hi0. cbn. by rewrite Nat.add_1_r, Nat.iter_succ, <- Hp0.
    - rewrite list_lookup_insert_ne by done. by rewrite Nat.add_0_r. }
  assert (∀ j k q0 e, ps0 !! j = Some q0 →
            (k < count_occ Nat.eq_dec (schedule ++ [i]) j)%nat →
            In e (evs_of (Nat.iter k nxt q0)) → In e (evs ++ evs_of p))
    as Ht1.
  { intros j k q0 e Hj. rewrite count_snoc.
    destruct (decide (i = j)) as [<-|Hne].
    - intros Hk He. apply in_or_app.
      destruct (decide (k = count_occ Nat.eq_dec schedule i)) as [->|Hk'].
      + right. rewrite Hi0 in Hj. injection Hj as <-. by rewrite Hp0.
      + left. apply (Ht i k q0 e Hj); [lia | done].
    - rewrite Nat.add_0_r. intros Hk He. apply in_or_app. left. eauto. }
  assert (Forall (λ e, isPostStep e = false) (evs ++ evs_of p)) as Hc1.
  { apply Forall_app. split; [done | apply events_of_components]. }
  destruct Hm as [(Hm & Ha & Hx)|(Hm & Ha & Hx)].
  - destruct (continue_awaiting s1 Hm Hr1) as (Hps & Hcase).
    split; try done.
    + by rewrite Hps.
    + by rewrite Hps.
    + rewrite Hps. destruct Hcase as [(-> & -> & ->)|(-> & -> & ->)].
      * left. repeat split. cbn. by rewrite Htr, Hx, app_assoc.
      * right. repeat split. rewrite after_all_trace. cbn.
        by rewrite Htr, Hx, !app_assoc.
  - assert (p = Fulfilled) as ->.
    { apply promise_all_Fulfilled in Ha. by eapply Forall_lookup_1 in Ha. }
    rewrite continue_settled by (cbn; by rewrite Hm).
    cbn in Htr. rewrite app_nil_r in Htr.
    split; try done. right. subst s1. cbn.
    rewrite list_insert_id by done. repeat split; try done.
    by rewrite Htr, Hx, app_nil_r.
Qed.

(** The synchronous start of one component: one event, the document and
    the window untouched. *)
Lemma loadComponent_frame name pg :
  notRejected (loadComponent name pg).1 ∧
  document (loadComponent name pg).2 = document pg ∧
  window (loadComponent name pg).2 = window pg ∧
  ∃ e, isPostStep e = false ∧
       trace (loadComponent name pg).2 = (trace pg ++ [e])%list.
Proof.
  unfold loadComponent.
  destruct (lookup_component name components) as [c|];
    [destruct (querySelector (selector c) pg)|]; cbn;
    (split; [done|]; split; [done|]; split; [done|]);
    (eexists; split; [|reflexivity]; reflexivity).
Qed.

Lemma componentURL_window name pg pg' :
  window pg = window pg' → componentURL name pg = componentURL name pg'.
Proof.
  intros Hw. unfold componentURL, getComponentFile, isEnglishPage.
  by rewrite Hw.
Qed.

Lemma start_all_spec (names : list string) (pg : Page) :
  Forall notRejected (start_all names pg).1 ∧
  length (start_all names pg).1 = length names ∧
  document (start_all names pg).2 = document pg ∧
  window (start_all names pg).2 = window pg ∧
  (∃ evs, Forall (λ e, isPostStep e = false) evs ∧
          trace (start_all names pg).2 = (trace pg ++ evs)%list) ∧
  ∀ (i : nat) (name : string) (c : Component),
    names !! i = Some name →
    lookup_component name components = Some c →
    is_Some (placeholders (document pg) !! selector c) →
    (start_all names pg).1 !! i
    = Some (Pending (AwaitFetch name (selector c) (componentURL name pg))).
Proof.
  revert pg. induction names as [|n names IH]; intros pg; cbn [start_all].
  - cbn. repeat split; try done. exists []. by rewrite app_nil_r.
  - destruct (loadComponent_frame n pg) as (Hr & Hd & Hw & e & He & Ht).
    pose proof (loadComponent_start n) as Hstart.
    destruct (loadComponent n pg) as [p pg1] eqn:El. cbn [fst snd] in *.
    destruct (IH pg1) as (Hr' & Hl' & Hd' & Hw' & (evs & Hevs & Ht') & Hi').
    destruct (start_all names pg1) as [ps pg2]. cbn [fst snd] in *.
    repeat split.
    + by constructor.
    + cbn. by rewrite Hl'.
    + by rewrite Hd', Hd.
    + by rewrite Hw', Hw.
    + exists (e :: evs). split; [by constructor|].
      by rewrite Ht', Ht, <- app_assoc.
    + intros [|i] name c Hn Hc Hp.
      * cbn in Hn. injection Hn as <-.
        specialize (Hstart c pg Hc Hp). rewrite El in Hstart.
        by injection Hstart as -> _.
      * cbn in Hn. rewrite <- (componentURL_window name pg1 pg Hw).
        apply (Hi' i name c Hn Hc). by rewrite Hd.
Qed.

(** The invariant holds all along [loadAll], whatever the schedule. *)
Lemma loadAll_invariant (schedule : list nat) (pg : Page) :
  ∃ evs, Inv (trace pg) (start_all (map fst components) pg).1 schedule
           (loadAll fetch flowbite render schedule pg) evs.
Proof.
  unfold loadAll.
  destruct (start_all_spec (map fst components) pg)
    as (Hr & _ & _ & _ & (evs0 & Hevs0 & Ht0) & _).
  destruct (start_all (map fst components) pg) as [ps pg1].
  cbn [fst snd] in *.
  induction schedule as [|i schedule IH] using rev_ind.
  - cbn [fold_left]. exists evs0.
    set (s := {| promises := ps; main := AwaitingAll; page := pg1 |}).
    destruct (continue_awaiting s eq_refl Hr) as (Hps & Hcase).
    split; try done.
    + by rewrite Hps.
    + intros i. rewrite Hps. cbn. by destruct (ps !! i).
    + intros i j p0 e _ Hj. cbn in Hj. lia.
    + rewrite Hps. destruct Hcase as [(-> & -> & ->)|(-> & -> & ->)].
      * left. by repeat split.
      * right. repeat split. rewrite after_all_trace. cbn.
        by rewrite Ht0, app_assoc.
  - destruct IH as (evs & HI). rewrite fold_left_app. cbn [fold_left].
    destruct (promises (fold_left (turn fetch flowbite render) schedule
                (continue flowbite
                   {| promises := ps; main := AwaitingAll; page := pg1 |}))
                !! i) as [p|] eqn:Ei.
    + eexists. by eapply turn_in_range.
    + eexists. by eapply turn_out_of_range.
Qed.

Lemma filter_components (evs post : list Event) :
  Forall (λ e, isPostStep e = false) evs →
  List.filter isPostStep (evs ++ post) = List.filter isPostStep post.
Proof.
  induction 1 as [|e evs He _ IH]; [done|]. cbn. by rewrite He.
Qed.

(** The events of a started component reach the trace within two turns. *)
Lemma component_events_delivered (name : string) (c : Component) (pg : Page)
    (p0 : Promise Await) :
  p0 = Pending (AwaitFetch name (selector c) (componentURL name pg)) →
  match got (componentURL name pg) with
  | Some html =>
      In (Injected name (selector c) html) (evs_of (nxt p0)) ∧
      In (ComponentLoaded name (selector c)) (evs_of (nxt p0))
  | None =>
      ∃ e, In (LoadFailed name e) (evs_of p0) ∨
           In (LoadFailed name e) (evs_of (nxt p0))
  end.
Proof.
  intros ->. unfold fetched. cbn.
  destruct (fetch (componentURL name pg)) as [reason|status [e|html]].
  - eexists. left. by left.
  - destruct (ok status); cbn; eexists; [right | left]; by left.
  - destruct (ok status); cbn.
    + split; [by left | right; by left].
    + eexists. left. by left.
Qed.

(** The run seen through its promises and its trace, under any order of the
    network answers. *)
Lemma loadAll_run_facts (schedule : list nat) (pg : Page) :
  let s := loadAll fetch flowbite render schedule pg in
  (∀ e, main s ≠ Failed e) ∧
  Forall notRejected (promises s) ∧
  (∃ evs : list Event,
     Forall (λ e, isPostStep e = false) evs ∧
     ((main s = AwaitingAll ∧
       ¬ Forall (λ p, p = Fulfilled) (promises s) ∧
       trace (page s) = (trace pg ++ evs)%list) ∨
      (main s = Completed ∧
       Forall (λ p, p = Fulfilled) (promises s) ∧
       trace (page s) = (trace pg ++ evs ++ posts)%list ∧
       List.filter isPostStep (evs ++ posts) = posts)) ∧
     ((∀ i : nat, (i < length components)%nat →
                  (2 ≤ count_occ Nat.eq_dec schedule i)%nat) →
      main s = Completed ∧
      ∀ (name : string) (c : Component),
        In (name, c) components →
        is_Some (placeholders (document pg) !! selector c) →
        match got (componentURL name pg) with
        | Some html =>
            In (Injected name (selector c) html) evs ∧
            In (ComponentLoaded name (selector c)) evs
        | None => ∃ e, In (LoadFailed name e) evs
        end)) ∧
  (flowbite = None →
   posts = [FlowbiteStep false; HighlightStep] ∧
   ∀ pg', initFlowbite flowbite pg' = emit (FlowbiteStep false) pg').
Proof.
  cbv zeta. destruct (loadAll_invariant schedule pg) as (evs & [Hr Hp Hc Ht Hm]).
  destruct (start_all_spec (map fst components) pg)
    as (Hr0 & Hl0 & _ & _ & _ & Hi0).
  set (s := loadAll fetch flowbite render schedule pg) in *.
  set (ps0 := (start_all (map fst components) pg).1) in *.
  split; [|split; [done|split]].
  - intros e. by destruct Hm as [(-> & _)|(-> & _)].
  - exists evs. split; [done|]. split.
    + destruct Hm as [(Hm & Ha & Hx)|(Hm & Ha & Hx)]; [left | right].
      * repeat split; try done. intros Hf%promise_all_Fulfilled. congruence.
      * repeat split; try done; [by apply promise_all_Fulfilled|].
        rewrite (filter_components _ _ Hc). unfold postSteps.
        by destruct flowbite.
    + intros Hfair.
      assert (Forall (λ p, p = Fulfilled) (promises s)) as Hall.
      { apply Forall_lookup. intros i p Hi.
        specialize (Hp i). rewrite Hi in Hp.
        destruct (ps0 !! i) as [p0|] eqn:E0; [|done]. injection Hp as ->.
        apply iter_next_settled.
        - by eapply Forall_lookup_1 in Hr0.
        - apply Hfair. apply lookup_lt_Some in E0.
          rewrite Hl0, length_map in E0. done. }
      split.
      * destruct Hm as [(_ & Ha & _)|(Hm & _)]; [|done].
        apply promise_all_Fulfilled in Hall. congruence.
      * intros name c Hin Hph.
        assert (∃ i, (i < length components)%nat ∧
                     map fst components !! i = Some name ∧
                     lookup_component name components = Some c)
          as (i & Hlt & Hname & Hlook).
        { destruct Hin as [[= <- <-]|[[= <- <-]|[]]].
          - exists 0%nat. split; [cbn; lia|]. split; reflexivity.
          - exists 1%nat. split; [cbn; lia|]. split; reflexivity. }
        pose proof (Hi0 i name c Hname Hlook Hph) as E0.
        pose proof (component_events_delivered name c pg _ eq_refl) as Hd.
        specialize (Hfair i Hlt).
        destruct (got (componentURL name pg)) as [html|].
        -- destruct Hd as [H1 H2].
           split; apply (Ht i 1%nat _ _ E0); try lia; done.
        -- destruct Hd as (e & [H|H]); exists e.
           ++ apply (Ht i 0%nat _ _ E0); [lia | done].
           ++ apply (Ht i 1%nat _ _ E0); [lia | done].
  - intros ->. split; reflexivity.
Qed.

End LoaderFacts.

(** ** The two components on a server without the header fragment *)

Lemma loadComponent_outcome_witness :
  document (loadComponent_settled headerMissing noLinks "header"
              (samplePage "/" [])).2
  = document (samplePage "/" []) ∧
  placeholders (document (loadComponent_settled headerMissing noLinks "footer"
                            (samplePage "/" [])).2)
    !! "#footer-placeholder" = Some "<footer></footer>".
Proof.
  split.
  - destruct (loadComponent_outcome headerMissing noLinks "header"
                {| selector := "#header-placeholder"; file := "header.html" |}
                (samplePage "/" []) eq_refl) as (_ & Hfail & _).
    + vm_compute. eauto.
    + apply Hfail. reflexivity.
  - destruct (loadComponent_outcome headerMissing noLinks "footer"
                {| selector := "#footer-placeholder"; file := "footer.html" |}
                (samplePage "/" []) eq_refl) as (_ & _ & Hok & _).
    + vm_compute. eauto.
    + destruct (Hok "<footer></footer>" eq_refl) as (-> & _).
      apply lookup_insert_eq.
Defined.

(** The same run, computed: the header answers 404 and its placeholder stays
    empty, the footer is injected, and the two steps close the trace. *)
Example loadAll_header_missing :
  let s := loadAll headerMissing None noLinks [1; 0; 1; 0]%nat
             (samplePage "/" [sampleLink "home"]) in
  main s = Completed ∧
  placeholders (document (page s)) !! "#header-placeholder" = Some "" ∧
  placeholders (document (page s)) !! "#footer-placeholder"
    = Some "<footer></footer>" ∧
  navLinks (document (page s)) = [markActive (sampleLink "home")] ∧
  trace (page s) =
    [Fetching "header" "/components/header.html";
     Fetching "footer" "/components/footer.html";
     LoadFailed "header" (HttpError 404);
     Injected "footer" "#footer-placeholder" "<footer></footer>";
     ComponentLoaded "footer" "#footer-placeholder";
     FlowbiteStep false; HighlightStep].
Proof. vm_compute. repeat split. Qed.

(** * Further properties of i18n.js *)

Section LocaleMore.

Import i18n.

(** X1. Saving and reading back.  With storage available the language saved
    is the one read back; with storage denied or full [saveLanguage] changes
    nothing at all; in every case it touches neither another key nor the
    location, the console or the navigation requests. *)
Theorem saveLanguage_roundtrip (lang : string) (w : Window) :
  (mode (localStorage w) = Available →
     getSavedLanguage (saveLanguage lang w) = Some lang) ∧
  (mode (localStorage w) ≠ Available → saveLanguage lang w = w) ∧
  (∀ k, k ≠ STORAGE_KEY →
     items (localStorage (saveLanguage lang w)) !! k
     = items (localStorage w) !! k) ∧
  pathname (saveLanguage lang w) = pathname w ∧
  hash (saveLanguage lang w) = hash w ∧
  warnings (saveLanguage lang w) = warnings w ∧
  navigation (saveLanguage lang w) = navigation w.
Proof.
  split; [apply saveLanguage_available|].
  destruct (saveLanguage_location lang w) as (Hp & Hh & Hn & Hw).
  repeat split; try done.
  - intros Hm. unfold saveLanguage, setItem.
    by destruct (mode (localStorage w)).
  - intros k Hk. unfold saveLanguage, setItem.
    destruct (mode (localStorage w)); cbn; try done.
    by rewrite lookup_insert_ne.
Qed.

Lemma saveLanguage_roundtrip_witness :
  getSavedLanguage (saveLanguage "en" (returningVisit "/" "ja" None)) = Some "en".
Proof.
  apply (saveLanguage_roundtrip "en" (returningVisit "/" "ja" None)).
  reflexivity.
Defined.

(** X2. Storage that cannot be accessed.  Nothing is read, so the visitor
    counts as a first-time visitor on every load: the redirect decision
    rests on the path and the browser language alone.  Nothing is written,
    by [init] or by [switchLanguage], and nothing is raised. *)
Theorem storage_denied_degrades (w : Window) :
  mode (localStorage w) = Denied →
  getSavedLanguage w = None ∧
  (shouldAutoRedirect w = true ↔
     getLanguageFromURL w = "ja" ∧ getBrowserLanguage w = "en") ∧
  localStorage (init w) = localStorage w ∧
  ∀ targetLang, localStorage (switchLanguage targetLang w) = localStorage w.
Proof.
  intros Hm.
  assert (getSavedLanguage w = None) as Hn
    by (unfold getSavedLanguage, getItem; by rewrite Hm).
  assert (∀ lang, saveLanguage lang w = w) as Hs.
  { intros lang. unfold saveLanguage, setItem. by rewrite Hm. }
  split; [done|]. split; [|split].
  - unfold shouldAutoRedirect. rewrite Hn. cbn.
    rewrite andb_true_iff, !String.eqb_eq. done.
  - unfold init. rewrite handleAutoRedirect_spec.
    destruct (shouldAutoRedirect w); [done|].
    rewrite Hn. cbn. by rewrite Hs.
  - intros targetLang. unfold switchLanguage.
    destruct (supported targetLang); cbn; [|done].
    rewrite Hs. by destruct (String.eqb _ _).
Qed.

Lemma storage_denied_degrades_witness :
  getSavedLanguage
    (with_storage {| mode := Denied; items := {[ STORAGE_KEY := "en" ]};
                     journal := [] |} (firstVisit "/" None)) = None.
Proof.
  apply (storage_denied_degrades
           (with_storage {| mode := Denied; items := {[ STORAGE_KEY := "en" ]};
                            journal := [] |} (firstVisit "/" None))).
  reflexivity.
Defined.

Lemma lowerChar_e (c : ascii) :
  JS.lowerChar c = "e"%char ↔ c = "e"%char ∨ c = "E"%char.
Proof.
  destruct c as [[] [] [] [] [] [] [] []]; vm_compute;
    (split; [intros [=]; auto | intros [[=]|[=]]; reflexivity]).
Qed.

Lemma lowerChar_n (c : ascii) :
  JS.lowerChar c = "n"%char ↔ c = "n"%char ∨ c = "N"%char.
Proof.
  destruct c as [[] [] [] [] [] [] [] []]; vm_compute;
    (split; [intros [=]; auto | intros [[=]|[=]]; reflexivity]).
Qed.

(** X3. The browser locale.  The tag looked at is [navigator.language]
    unless it is missing or empty, and [navigator.userLanguage] then.  The
    result is ['en'] exactly when that tag begins with the letters e and n,
    in either case; every other tag, and no tag at all, gives ['ja']. *)
Theorem getBrowserLanguage_en (w : Window) :
  let tag := JS.or_else (language w) (userLanguage w) in
  (getBrowserLanguage w = "en" ↔
     ∃ (c1 c2 : ascii) (rest : string),
       tag = Some (String c1 (String c2 rest)) ∧
       (c1 = "e"%char ∨ c1 = "E"%char) ∧ (c2 = "n"%char ∨ c2 = "N"%char)) ∧
  (getBrowserLanguage w ≠ "en" → getBrowserLanguage w = "ja") ∧
  (∀ s, language w = Some s → s ≠ "" → tag = Some s) ∧
  (language w = None ∨ language w = Some "" → tag = userLanguage w).
Proof.
  cbv zeta. split; [|split; [|split]].
  - unfold getBrowserLanguage.
    destruct (JS.or_else (language w) (userLanguage w)) as [[|c1 [|c2 rest]]|];
      cbn.
    + split; [done | by intros (? & ? & ? & [=] & _)].
    + destruct (Ascii.eqb _ _); (split; [done | by intros (? & ? & ? & [=] & _)]).
    + destruct (Ascii.eqb_spec (JS.lowerChar c1) "e") as [E1|E1];
        [destruct (Ascii.eqb_spec (JS.lowerChar c2) "n") as [E2|E2]|].
      * split; [intros _ | done]. exists c1, c2, rest.
        by rewrite <- lowerChar_e, <- lowerChar_n.
      * split; [done|]. intros (? & ? & ? & [= <- <- <-] & _ & H).
        by apply lowerChar_n in H.
      * split; [done|]. intros (? & ? & ? & [= <- <- <-] & H & _).
        by apply lowerChar_e in H.
    + split; [done | by intros (? & ? & ? & [=] & _)].
  - by destruct (getBrowserLanguage_cases w) as [-> | ->].
  - intros s Hs Hne. unfold JS.or_else. rewrite Hs. cbn.
    by destruct (String.eqb_spec s "").
  - intros [H|H]; unfold JS.or_else; by rewrite H.
Qed.

Lemma getBrowserLanguage_en_witness :
  getBrowserLanguage (firstVisit "/" (Some "EN-us")) = "en" ∧
  getBrowserLanguage
    (mkWindow "/" "" emptyStorage (Some "") (Some "en-GB") [] []) = "en".
Proof.
  split.
  - apply (getBrowserLanguage_en (firstVisit "/" (Some "EN-us"))).
    exists "E"%char, "N"%char, "-us". repeat split; auto.
  - apply (getBrowserLanguage_en
             (mkWindow "/" "" emptyStorage (Some "") (Some "en-GB") [] [])).
    exists "e"%char, "n"%char, "-GB". repeat split; auto.
Defined.

Lemma append_assoc (a b c : string) : (a +:+ b) +:+ c = a +:+ (b +:+ c).
Proof.
  induction a as [|x a IH]; [done|]. rewrite !append_cons. by f_equal.
Qed.

(** The relative path of a page under ['/en/'] is the path without ['/en']. *)
Lemma getRelativePath_prefixed w :
  JS.startsWith (pathname w) "/en/" = true →
  pathname w = "/en" +:+ getRelativePath w ∧
  JS.startsWith (getRelativePath w) "/" = true.
Proof.
  intros Hp. unfold getRelativePath. rewrite Hp.
  pose proof (startsWith_decomp _ _ (startsWith_shorter _ "/en" "/" Hp)) as Hd.
  split; [exact Hd|]. rewrite (startsWith_decomp _ _ Hp). reflexivity.
Qed.

Lemma getRelativePath_default w :
  getLanguageFromURL w = "ja" → getRelativePath w = pathname w.
Proof.
  unfold getLanguageFromURL, getRelativePath.
  destruct (JS.startsWith (pathname w) "/en/"); [done|].
  by destruct (String.eqb (pathname w) "/en").
Qed.

Lemma string_cons_neq (c : ascii) (s : string) : String c s ≠ s.
Proof. induction s as [|d s IH]; [done|]. intros [= -> H]. by apply IH. Qed.

(** The URL built for the language the page already has. *)
Lemma buildLanguageURL_same w :
  pathname w ≠ "/en" →
  buildLanguageURL (getLanguageFromURL w) w = pathname w +:+ hash w.
Proof.
  intros Hne. destruct (getLanguageFromURL_cases w) as [He|Hj].
  - rewrite He. apply getLanguageFromURL_en in He as [Hp|?]; [|done].
    destruct (getRelativePath_prefixed w Hp) as (Hd & Hs).
    unfold buildLanguageURL. change (String.eqb "en" "en") with true. cbv iota.
    destruct (String.eqb_spec (getRelativePath w) "/") as [E|_].
    + rewrite Hd. by rewrite E.
    + by rewrite <- Hd.
  - rewrite Hj. unfold buildLanguageURL.
    change (String.eqb "ja" "en") with false. cbv iota.
    by rewrite getRelativePath_default.
Qed.

(** X4. Switching to the language of the page.  Unless the path is the bare
    ['/en'], the URL built for the current language is the current path and
    hash, so [switchLanguage] saves the preference and requests no
    navigation.  From the bare ['/en'], English is at ['/en/']: there the
    switch does navigate. *)
Theorem switchLanguage_same_language (w : Window) :
  (pathname w ≠ "/en" →
     buildLanguageURL (getLanguageFromURL w) w = pathname w +:+ hash w ∧
     navigation (switchLanguage (getLanguageFromURL w) w) = navigation w ∧
     localStorage (switchLanguage (getLanguageFromURL w) w)
       = localStorage (saveLanguage (getLanguageFromURL w) w)) ∧
  (pathname w = "/en" →
     getLanguageFromURL w = "en" ∧
     navigation (switchLanguage "en" w)
       = (navigation w ++ [Assign ("/en/" +:+ hash w)])%list).
Proof.
  split.
  - intros Hne. pose proof (buildLanguageURL_same w Hne) as Hb.
    split; [done|]. unfold switchLanguage.
    assert (supported (getLanguageFromURL w) = true) as ->
      by (apply supported_In, getLanguageFromURL_supported).
    cbn [negb]. rewrite buildLanguageURL_saveLanguage, Hb.
    destruct (saveLanguage_location (getLanguageFromURL w) w)
      as (-> & -> & Hn & _).
    by rewrite String.eqb_refl.
  - intros Hp. split; [apply getLanguageFromURL_en; by right|].
    assert (buildLanguageURL "en" w = "/en/" +:+ hash w) as Hb
      by (unfold buildLanguageURL, getRelativePath; by rewrite Hp).
    unfold switchLanguage. change (supported "en") with true. cbn [negb].
    rewrite buildLanguageURL_saveLanguage, Hb.
    destruct (saveLanguage_location "en" w) as (-> & -> & Hn & _).
    rewrite Hp.
    destruct (String.eqb_spec ("/en/" +:+ hash w) ("/en" +:+ hash w)) as [E|_].
    + injection E as E. by apply string_cons_neq in E.
    + cbn. by rewrite Hn.
Qed.

Lemma switchLanguage_same_language_witness :
  navigation (switchLanguage "en" (firstVisit "/en/services/" None)) = [] ∧
  navigation (switchLanguage "en" (firstVisit "/en" None)) = [Assign "/en/"].
Proof.
  split.
  - apply (switchLanguage_same_language (firstVisit "/en/services/" None)).
    discriminate.
  - apply (switchLanguage_same_language (firstVisit "/en" None)).
    reflexivity.
Defined.

Lemma buildLanguageURL_en_default w :
  hash w = "" → getLanguageFromURL w = "ja" →
  buildLanguageURL "en" w = "/en" +:+ pathname w.
Proof.
  intros Hh Hj. unfold buildLanguageURL.
  change (String.eqb "en" "en") with true. cbv iota.
  rewrite (getRelativePath_default w Hj), Hh, append_empty_r.
  by destruct (String.eqb_spec (pathname w) "/") as [->|_].
Qed.

(** X5. There and back.  With an empty hash, from a default-locale page
    whose path begins with ['/'], the Japanese URL of its English URL is the
    path itself; from a page under ['/en/'] that is not doubly prefixed, the
    English URL of its Japanese URL is the path itself. *)
Theorem buildLanguageURL_there_and_back (w : Window) :
  hash w = "" →
  (getLanguageFromURL w = "ja" →
   JS.startsWith (pathname w) "/" = true →
   buildLanguageURL "ja" (with_pathname (buildLanguageURL "en" w) w)
     = pathname w) ∧
  (JS.startsWith (pathname w) "/en/" = true →
   JS.startsWith (pathname w) "/en/en/" = false →
   pathname w ≠ "/en/en" →
   buildLanguageURL "en" (with_pathname (buildLanguageURL "ja" w) w)
     = pathname w).
Proof.
  intros Hh. split.
  - intros Hj Hs. rewrite (buildLanguageURL_en_default w Hh Hj).
    unfold buildLanguageURL. change (String.eqb "ja" "en") with false.
    cbv iota. cbn [hash with_pathname]. rewrite Hh, append_empty_r.
    unfold getRelativePath. cbn [pathname with_pathname].
    rewrite (startsWith_decomp _ _ Hs). reflexivity.
  - intros Hp Hd1 Hd2.
    destruct (getRelativePath_prefixed w Hp) as (Hd & Hs).
    assert (buildLanguageURL "ja" w = getRelativePath w) as ->.
    { unfold buildLanguageURL. change (String.eqb "ja" "en") with false.
      cbv iota. by rewrite Hh, append_empty_r. }
    assert (getLanguageFromURL (with_pathname (getRelativePath w) w) = "ja")
      as Hj.
    { destruct (getLanguageFromURL_cases
                  (with_pathname (getRelativePath w) w)) as [He|?]; [|done].
      apply getRelativePath_en in He as [?|?]; congruence. }
    rewrite (buildLanguageURL_en_default
               (with_pathname (getRelativePath w) w) Hh Hj).
    cbn [pathname with_pathname]. by rewrite <- Hd.
Qed.

Lemma buildLanguageURL_there_and_back_witness :
  buildLanguageURL "ja"
    (with_pathname (buildLanguageURL "en" (firstVisit "/pages/about/" None))
       (firstVisit "/pages/about/" None)) = "/pages/about/" ∧
  buildLanguageURL "en"
    (with_pathname (buildLanguageURL "ja" (firstVisit "/en/" None))
       (firstVisit "/en/" None)) = "/en/".
Proof.
  split.
  - by apply (buildLanguageURL_there_and_back
                (firstVisit "/pages/about/" None) eq_refl).
  - by apply (buildLanguageURL_there_and_back (firstVisit "/en/" None) eq_refl).
Defined.

Lemma getSavedLanguage_storage w w' :
  localStorage w' = localStorage w → getSavedLanguage w' = getSavedLanguage w.
Proof. intros H. unfold getSavedLanguage. by rewrite H. Qed.

Lemma switchLanguage_storage targetLang w :
  In targetLang LANGUAGES →
  localStorage (switchLanguage targetLang w)
  = localStorage (saveLanguage targetLang w).
Proof.
  intros Hs%supported_In. unfold switchLanguage. rewrite Hs. cbn [negb].
  by destruct (negb _).
Qed.

(** A page whose store holds a non-empty preference: [init] does nothing. *)
Lemma init_with_preference w v :
  getSavedLanguage w = Some v → v ≠ "" → init w = w.
Proof.
  intros Hs Hv. unfold init. rewrite handleAutoRedirect_spec.
  rewrite (shouldAutoRedirect_stored w v Hs Hv), Hs. cbn.
  by destruct (String.eqb_spec v "").
Qed.

Lemma supported_not_empty v : In v LANGUAGES → v ≠ "".
Proof. by intros [<-|[<-|[]]]. Qed.

(** X6. A chosen language outlives the browser setting.  After
    [switchLanguage] to a supported language with storage available, every
    page that loads with that store, at any path and with any browser
    language, is not redirected, and [init] there changes nothing. *)
Theorem preference_stops_redirect (targetLang : string) (w w' : Window) :
  In targetLang LANGUAGES →
  mode (localStorage w) = Available →
  localStorage w' = localStorage (switchLanguage targetLang w) →
  getSavedLanguage w' = Some targetLang ∧
  shouldAutoRedirect w' = false ∧
  handleAutoRedirect w' = (false, w') ∧
  init w' = w'.
Proof.
  intros Hl Hm Hst.
  assert (getSavedLanguage w' = Some targetLang) as Hs.
  { rewrite (getSavedLanguage_storage _ _ Hst).
    rewrite (getSavedLanguage_storage (saveLanguage targetLang w) _
               (switchLanguage_storage targetLang w Hl)).
    by apply saveLanguage_available. }
  pose proof (supported_not_empty _ Hl) as Hne.
  pose proof (shouldAutoRedirect_stored w' _ Hs Hne) as Hf.
  repeat split; try done.
  - by rewrite handleAutoRedirect_spec, Hf.
  - by eapply init_with_preference.
Qed.

Lemma preference_stops_redirect_witness :
  shouldAutoRedirect
    (with_pathname "/"
       (switchLanguage "ja" (firstVisit "/en/" (Some "en-US")))) = false.
Proof.
  apply (preference_stops_redirect "ja" (firstVisit "/en/" (Some "en-US"))).
  - simpl. auto.
  - reflexivity.
  - reflexivity.
Defined.

Lemma init_no_redirect w :
  shouldAutoRedirect w = false →
  init w = if negb (JS.truthy (getSavedLanguage w))
           then saveLanguage (getLanguageFromURL w) w else w.
Proof. intros Hf. unfold init. by rewrite handleAutoRedirect_spec, Hf. Qed.

(** X7. [init] on a page that is not redirected.  If storage is available
    the store holds a preference afterwards: the one it held, or else the
    locale of the path.  The location and the navigation requests are as
    before, and a second [init] changes nothing more. *)
Theorem init_settles (w : Window) :
  shouldAutoRedirect w = false →
  init (init w) = init w ∧
  navigation (init w) = navigation w ∧
  pathname (init w) = pathname w ∧
  (mode (localStorage w) = Available →
     (JS.truthy (getSavedLanguage w) = true →
        getSavedLanguage (init w) = getSavedLanguage w) ∧
     (JS.truthy (getSavedLanguage w) = false →
        getSavedLanguage (init w) = Some (getLanguageFromURL w))).
Proof.
  intros Hf. rewrite (init_no_redirect w Hf).
  destruct (JS.truthy (getSavedLanguage w)) eqn:Et; cbn [negb].
  - rewrite (init_no_redirect w Hf), Et. by repeat split.
  - destruct (saveLanguage_location (getLanguageFromURL w) w)
      as (Hp & _ & Hn & _).
    split; [|split; [done|split; [done|]]].
    + destruct (mode (localStorage w)) eqn:Em.
      * eapply init_with_preference.
        -- by apply saveLanguage_available.
        -- apply supported_not_empty, getLanguageFromURL_supported.
      * assert (saveLanguage (getLanguageFromURL w) w = w) as ->
          by (unfold saveLanguage, setItem; by rewrite Em).
        rewrite (init_no_redirect w Hf), Et. cbn [negb].
        unfold saveLanguage, setItem. by rewrite Em.
      * assert (saveLanguage (getLanguageFromURL w) w = w) as ->
          by (unfold saveLanguage, setItem; by rewrite Em).
        rewrite (init_no_redirect w Hf), Et. cbn [negb].
        unfold saveLanguage, setItem. by rewrite Em.
    + intros Hm. split; [done|]. intros _. by apply saveLanguage_available.
Qed.

Lemma init_settles_witness :
  getSavedLanguage (init (firstVisit "/en/pages/about/" (Some "fr")))
  = Some "en".
Proof.
  destruct (init_settles (firstVisit "/en/pages/about/" (Some "fr")) eq_refl)
    as (_ & _ & _ & H).
  destruct (H eq_refl) as [_ H']. by apply H'.
Defined.

(** X8. The first visit of an English-speaking visitor.  On a
    default-locale page whose path begins with ['/'], with storage available
    and nothing stored, [init] replaces the location with the English URL
    and saves nothing.  On the page the browser lands on, [init] saves
    ['en'] and requests no navigation; on every page loaded with that store
    afterwards [init] does nothing. *)
Theorem first_visit_flow (w landing : Window) :
  mode (localStorage w) = Available →
  JS.truthy (getSavedLanguage w) = false →
  JS.startsWith (pathname w) "/" = true →
  getLanguageFromURL w = "ja" →
  getBrowserLanguage w = "en" →
  pathname landing = urlPathname (buildLanguageURL "en" w) →
  localStorage landing = localStorage (init w) →
  init w = request (Replace (buildLanguageURL "en" w)) w ∧
  localStorage (init w) = localStorage w ∧
  getSavedLanguage (init landing) = Some "en" ∧
  navigation (init landing) = navigation landing ∧
  ∀ later : Window,
    localStorage later = localStorage (init landing) → init later = later.
Proof.
  intros Hm Ht Hs Hj Hb Hpath Hst.
  assert (shouldAutoRedirect w = true) as Hr
    by (unfold shouldAutoRedirect; by rewrite Ht, Hj, Hb).
  assert (init w = request (Replace (buildLanguageURL "en" w)) w) as Hi
    by (unfold init; by rewrite handleAutoRedirect_spec, Hr).
  rewrite Hi in *. cbn [localStorage request] in Hst.
  assert (getLanguageFromURL landing = "en") as He.
  { apply getLanguageFromURL_en. left. rewrite Hpath.
    by apply urlPathname_keeps_en, buildLanguageURL_en_prefix. }
  pose proof (shouldAutoRedirect_en landing He) as Hf.
  assert (JS.truthy (getSavedLanguage landing) = false) as Ht'
    by (by rewrite (getSavedLanguage_storage w landing Hst)).
  assert (init landing = saveLanguage "en" landing) as Hl
    by (by rewrite (init_no_redirect landing Hf), Ht', He).
  assert (getSavedLanguage (init landing) = Some "en") as Hsaved.
  { rewrite Hl. apply saveLanguage_available. by rewrite Hst. }
  repeat split; try done.
  - rewrite Hl. by destruct (saveLanguage_location "en" landing) as (_ & _ & ? & _).
  - intros later Hlater. apply (init_with_preference later "en"); [|done].
    by rewrite (getSavedLanguage_storage _ _ Hlater).
Qed.

Lemma first_visit_flow_witness :
  init (firstVisit "/pages/about/" (Some "en-US"))
  = request (Replace "/en/pages/about/")
      (firstVisit "/pages/about/" (Some "en-US")) ∧
  getSavedLanguage (init (firstVisit "/en/pages/about/" (Some "en-US")))
  = Some "en".
Proof.
  destruct (first_visit_flow (firstVisit "/pages/about/" (Some "en-US"))
              (firstVisit "/en/pages/about/" (Some "en-US"))
              eq_refl eq_refl eq_refl eq_refl eq_refl eq_refl eq_refl)
    as (H1 & _ & H2 & _).
  split; [exact H1 | exact H2].
Defined.

End LocaleMore.

(** * Further properties of components.js *)

Section PageFacts.

Import i18n.

(** X9. The language predicates.  On every path exactly one of [isEnglish]
    and [isJapanese] holds, each says what [getCurrentLanguage] returns,
    that language is a supported one, and the test the component loader
    makes on its own, [isEnglishPage], agrees with [isEnglish]. *)
Theorem language_predicates (w : Window) :
  isEnglish w = negb (isJapanese w) ∧
  (isEnglish w = true ↔ getCurrentLanguage w = "en") ∧
  (isJapanese w = true ↔ getCurrentLanguage w = DEFAULT_LANGUAGE) ∧
  In (getCurrentLanguage w) LANGUAGES ∧
  ∀ (d : Document) (t : list Event), isEnglishPage (mkPage w d t) = isEnglish w.
Proof.
  unfold isEnglish, isJapanese, getCurrentLanguage, DEFAULT_LANGUAGE.
  repeat split; try apply String.eqb_eq; try apply getLanguageFromURL_supported.
  - by destruct (getLanguageFromURL_cases w) as [-> | ->].
  - intros d t. unfold isEnglishPage, getLanguageFromURL. cbn [window].
    by destruct (_ || _).
Qed.

Lemma normalizedPath_relative (pg : Page) :
  normalizedPath pg = getRelativePath (window pg).
Proof.
  unfold normalizedPath, isEnglishPage, getRelativePath, JS.replaceAtStart.
  destruct (JS.startsWith (pathname (window pg)) "/en/") eqn:Hp.
  - cbn [orb]. rewrite (startsWith_shorter _ "/en" "/" Hp).
    rewrite (startsWith_decomp _ _ Hp). reflexivity.
  - cbn [orb]. destruct (String.eqb_spec (pathname (window pg)) "/en") as [->|_];
      reflexivity.
Qed.

(** X10. The path [highlightActiveNav] compares with is the relative path of
    i18n.js, on every page.  So two pages with the same links and the same
    relative path, such as a page and its English counterpart, end with the
    same links highlighted. *)
Theorem highlightActiveNav_relative (pg pg' : Page) :
  normalizedPath pg = getRelativePath (window pg) ∧
  (navLinks (document pg') = navLinks (document pg) →
   getRelativePath (window pg') = getRelativePath (window pg) →
   navLinks (document (highlightActiveNav pg'))
   = navLinks (document (highlightActiveNav pg))).
Proof.
  split; [apply normalizedPath_relative|].
  intros Hl Hr. unfold highlightActiveNav.
  cbn [document navLinks with_document emit].
  by rewrite !normalizedPath_relative, Hl, Hr.
Qed.

Lemma highlightActiveNav_relative_witness :
  navLinks (document (highlightActiveNav
     (samplePage "/en/pages/about/" [sampleLink "home"; sampleLink "about"])))
  = navLinks (document (highlightActiveNav
     (samplePage "/pages/about/" [sampleLink "home"; sampleLink "about"]))).
Proof.
  by apply (highlightActiveNav_relative
     (samplePage "/pages/about/" [sampleLink "home"; sampleLink "about"])
     (samplePage "/en/pages/about/" [sampleLink "home"; sampleLink "about"])).
Defined.

(** X11. The fragment of a registered component follows the language of
    the page: on an English page [<name>-en.html], otherwise [<name>.html],
    the registered file, both fetched under ['/components/']. *)
Theorem getComponentFile_locale (name : string) (c : Component) (pg : Page) :
  In (name, c) components →
  getComponentFile name pg
    = Some (name +:+ (if isEnglish (window pg) then "-en.html" else ".html")) ∧
  componentURL name pg
    = "/components/" +:+ name +:+
      (if isEnglish (window pg) then "-en.html" else ".html") ∧
  (isEnglish (window pg) = false → getComponentFile name pg = Some (file c)).
Proof.
  intros Hin.
  assert (isEnglishPage pg = isEnglish (window pg)) as He.
  { unfold isEnglishPage, isEnglish, getLanguageFromURL. by destruct (_ || _). }
  unfold componentURL, getComponentFile.
  destruct Hin as [[= <- <-]|[[= <- <-]|[]]]; cbn [lookup_component components];
    cbn; rewrite He; by destruct (isEnglish (window pg)).
Qed.

Lemma getComponentFile_locale_witness :
  componentURL "footer" (samplePage "/en/pages/about/" [])
  = "/components/footer-en.html".
Proof.
  destruct (getComponentFile_locale "footer"
              {| selector := "#footer-placeholder"; file := "footer.html" |}
              (samplePage "/en/pages/about/" []))
    as (_ & Hurl & _); [right; left; reflexivity|].
  exact Hurl.
Defined.

Lemma classList_add_present token l :
  In token l → classList_add token l = l.
Proof.
  intros Hin. unfold classList_add.
  assert (existsb (String.eqb token) l = true) as ->; [|done].
  apply existsb_exists. exists token. by rewrite String.eqb_refl.
Qed.

Lemma classList_remove_absent token l :
  ¬ In token l → classList_remove token l = l.
Proof.
  intros Hn. unfold classList_remove. induction l as [|t l IH]; [done|].
  cbn. destruct (String.eqb_spec t token) as [->|_]; cbn.
  - destruct Hn. by left.
  - f_equal. apply IH. intros ?. apply Hn. by right.
Qed.

Lemma markActive_idempotent link : markActive (markActive link) = markActive link.
Proof.
  destruct (markActive_active link) as (Hb & Hm & Hg & _).
  unfold markActive at 1. cbn [data_page].
  rewrite (classList_add_present _ _ Hb), (classList_add_present _ _ Hm),
    (classList_remove_absent _ _ Hg).
  reflexivity.
Qed.

Lemma highlightLink_idempotent currentPath link :
  highlightLink currentPath (highlightLink currentPath link)
  = highlightLink currentPath link.
Proof.
  unfold highlightLink. destruct (isActive currentPath (data_page link)) eqn:E.
  - cbn [markActive data_page]. rewrite E. apply markActive_idempotent.
  - by rewrite E.
Qed.

(** X14. Highlighting twice is highlighting once: a second
    [highlightActiveNav] leaves every link as the first one left it.  The
    call does not touch the window. *)
Theorem highlightActiveNav_idempotent (pg : Page) :
  navLinks (document (highlightActiveNav (highlightActiveNav pg)))
  = navLinks (document (highlightActiveNav pg)) ∧
  window (highlightActiveNav pg) = window pg.
Proof.
  split; [|done]. unfold highlightActiveNav.
  cbn [document navLinks with_document emit].
  assert (∀ q, window q = window pg → normalizedPath q = normalizedPath pg)
    as Hn by (intros q Hq; unfold normalizedPath, isEnglishPage; by rewrite Hq).
  match goal with
  | |- context [normalizedPath (emit ?e ?q)] =>
      rewrite (Hn (emit e q) eq_refl)
  end.
  rewrite <- list_fmap_compose. apply list_fmap_ext.
  intros i link _. apply highlightLink_idempotent.
Qed.

(** X15. Highlighting only adds.  Every link keeps its place and its page
    identifier; a link that already has [aria-current] set to ['page'] keeps
    it; no class token other than ['text-gray-900'] is removed.  Nothing is
    ever un-highlighted. *)
Theorem highlightActiveNav_only_adds (pg : Page) (i : nat) (link : NavLink) :
  navLinks (document pg) !! i = Some link →
  ∃ link', navLinks (document (highlightActiveNav pg)) !! i = Some link' ∧
    data_page link' = data_page link ∧
    (aria_current link = Some "page" → aria_current link' = Some "page") ∧
    (aria_current link' = aria_current link ∨ aria_current link' = Some "page") ∧
    ∀ token, In token (classList link) → token ≠ "text-gray-900" →
             In token (classList link').
Proof.
  intros Hi. unfold highlightActiveNav.
  cbn [document navLinks with_document emit].
  rewrite list_lookup_fmap, Hi. cbn. eexists; split; [reflexivity|].
  unfold highlightLink. destruct (isActive _ _); [|by auto].
  cbn [markActive data_page aria_current classList].
  repeat split; auto.
  intros token Hin Hne. apply classList_remove_In. split; [|done].
  by do 2 apply classList_add_keeps.
Qed.

Lemma highlightActiveNav_only_adds_witness :
  ∃ link',
    navLinks (document (highlightActiveNav
       (samplePage "/pages/about/" [markActive (sampleLink "home")]))) !! 0
    = Some link' ∧ aria_current link' = Some "page".
Proof.
  destruct (highlightActiveNav_only_adds
     (samplePage "/pages/about/" [markActive (sampleLink "home")])
     0 (markActive (sampleLink "home")) eq_refl)
    as (link' & Hl & _ & Ha & _).
  exists link'. split; [exact Hl | by apply Ha].
Defined.

(** X20. The two revisions of the loader.  On a default-locale page the
    current [loadComponent] and [highlightActiveNav] do exactly what the
    earlier revision did.  On an English page they part: for a registered
    component whose placeholder is in the page the current one fetches the
    ['-en'] fragment, the earlier one the default fragment. *)
Theorem legacy_agrees (pg : Page) :
  (isEnglishPage pg = false →
     (∀ name, Legacy.loadComponent name pg = loadComponent name pg) ∧
     Legacy.highlightActiveNav pg = highlightActiveNav pg) ∧
  (isEnglishPage pg = true →
     ∀ name c, In (name, c) components →
       is_Some (placeholders (document pg) !! selector c) →
       Legacy.loadComponent name pg
         = (Pending (AwaitFetch name (selector c)
                       ("/components/" +:+ name +:+ ".html")),
            emit (Fetching name ("/components/" +:+ name +:+ ".html")) pg) ∧
       loadComponent name pg
         = (Pending (AwaitFetch name (selector c)
                       ("/components/" +:+ name +:+ "-en.html")),
            emit (Fetching name ("/components/" +:+ name +:+ "-en.html")) pg)).
Proof.
  split.
  - intros He. split.
    + intros name. unfold Legacy.loadComponent, loadComponent, getComponentFile.
      destruct (lookup_component name components) as [c|]; [|done].
      destruct (querySelector (selector c) pg); [|done]. by rewrite He.
    + unfold Legacy.highlightActiveNav, highlightActiveNav, normalizedPath.
      by rewrite He.
  - intros He name c Hin Hp.
    unfold Legacy.loadComponent, loadComponent, getComponentFile, querySelector.
    destruct Hin as [[= <- <-]|[[= <- <-]|[]]];
      cbn [lookup_component components String.eqb Ascii.eqb Bool.eqb selector file];
      rewrite decide_True by done; rewrite ?He; split; reflexivity.
Qed.

Lemma legacy_agrees_witness :
  Legacy.highlightActiveNav (samplePage "/pages/about/" [sampleLink "about"])
  = highlightActiveNav (samplePage "/pages/about/" [sampleLink "about"]).
Proof.
  by apply (legacy_agrees (samplePage "/pages/about/" [sampleLink "about"])).
Defined.

End PageFacts.

(** * Further properties of the loader *)

Section LoaderMore.

Variable fetch : string → FetchOutcome.
Variable flowbite : option (Document → Document).
Variable render : string → string → list NavLink → list NavLink.

Local Abbreviation settle := (loadComponent_settled fetch render).
Local Abbreviation run := (loadAll fetch flowbite render).
Local Abbreviation step := (turn fetch flowbite render).

(** X12. A component without its placeholder.  For a registered component
    whose placeholder is not in the page, [loadComponent] returns at once
    with its promise fulfilled: it logs one warning that names the selector,
    fetches nothing and leaves the document and the window as they are. *)
Theorem loadComponent_skipped (name : string) (c : Component) (pg : Page) :
  lookup_component name components = Some c →
  placeholders (document pg) !! selector c = None →
  settle name pg = loadComponent name pg ∧
  (settle name pg).1 = Fulfilled ∧
  document (settle name pg).2 = document pg ∧
  window (settle name pg).2 = window pg ∧
  trace (settle name pg).2
  = (trace pg ++ [Warned name ("Placeholder " +:+ JS.quoted (selector c)
                               +:+ " not found")])%list.
Proof.
  intros Hl Hc. unfold loadComponent_settled, loadComponent. rewrite Hl.
  unfold querySelector. rewrite decide_False by (rewrite Hc; by intros [? ?]).
  cbn. by repeat split.
Qed.

(** X13. [loadComponent] keeps to its own placeholder.  For a registered
    component, whatever the network answers, the window is unchanged, the
    page has the same placeholders as before, and every placeholder other
    than the component's own has received nothing. *)
Theorem loadComponent_frame_rule (name : string) (c : Component) (pg : Page)
    (other : string) :
  lookup_component name components = Some c →
  window (settle name pg).2 = window pg ∧
  (is_Some (placeholders (document (settle name pg).2) !! other) ↔
   is_Some (placeholders (document pg) !! other)) ∧
  (other ≠ selector c →
   placeholders (document (settle name pg).2) !! other
   = placeholders (document pg) !! other).
Proof.
  intros Hl. unfold loadComponent_settled, loadComponent. rewrite Hl.
  unfold querySelector.
  destruct (decide (is_Some (placeholders (document pg) !! selector c)))
    as [Hp|Hp]; [|by cbn].
  cbn [advance resume].
  destruct (fetch _) as [reason|status [e|html]]; cbn;
    [|destruct (ok status); cbn..]; try done.
  split; [done|]. split.
  - destruct (decide (selector c = other)) as [<-|Hne].
    + rewrite lookup_insert_eq. split; [done | by eauto].
    + by rewrite lookup_insert_ne.
  - intros Hne. by rewrite lookup_insert_ne.
Qed.

(** ** [loadAll] from turn to turn *)

Lemma loadAll_app (schedule more : list nat) (pg : Page) :
  run (schedule ++ more) pg = fold_left step more (run schedule pg).
Proof.
  unfold loadAll. destruct (start_all (map fst components) pg) as [ps pg1].
  by rewrite fold_left_app.
Qed.

(** Once [loadAll] has completed a turn changes nothing. *)
Lemma turn_completed (s : LoadAll) (i : nat) :
  main s = Completed →
  Forall (λ p, p = Fulfilled) (promises s) →
  step s i = s.
Proof.
  intros Hm Hf. unfold turn, deliver.
  destruct (promises s !! i) as [p|] eqn:Ei.
  - assert (p = Fulfilled) as -> by (by eapply Forall_lookup_1 in Hf).
    cbn. rewrite list_insert_id by done.
    rewrite continue_settled by (cbn; by rewrite Hm). by destruct s.
  - apply continue_settled. by rewrite Hm.
Qed.

Lemma completed_stable (s : LoadAll) (more : list nat) :
  main s = Completed →
  Forall (λ p, p = Fulfilled) (promises s) →
  fold_left step more s = s.
Proof.
  intros Hm Hf. induction more as [|i more IH]; [done|].
  cbn [fold_left]. by rewrite (turn_completed s i Hm Hf).
Qed.

(** X18. Completion is final.  Once [loadAll] has completed, whatever
    answers still arrive change nothing: the page, the promises and the
    trace stay as they are, so the two steps are never run again. *)
Theorem loadAll_completed_is_final (schedule more : list nat) (pg : Page) :
  main (run schedule pg) = Completed →
  run (schedule ++ more) pg = run schedule pg.
Proof.
  intros Hm. rewrite loadAll_app. apply completed_stable; [done|].
  destruct (loadAll_invariant fetch flowbite render schedule pg)
    as (evs & [_ _ _ _ Hmain]).
  destruct Hmain as [(Hm' & _)|(_ & Ha & _)]; [congruence|].
  by apply promise_all_Fulfilled.
Qed.

(** A turn only adds to the trace, never a fetch, and keeps the window. *)
Lemma continue_extends (s : LoadAll) :
  ∃ more, trace (page (continue flowbite s)) = (trace (page s) ++ more)%list ∧
          Forall (λ e, isFetching e = false) more ∧
          window (page (continue flowbite s)) = window (page s).
Proof.
  unfold continue. destruct (main s);
    try (exists []; by rewrite app_nil_r).
  destruct (promise_all (promises s));
    try (exists []; by rewrite app_nil_r).
  exists (postSteps flowbite). cbn [page]. rewrite after_all_trace.
  split; [done|]. split; [by repeat constructor|].
  unfold after_all, initFlowbite. by destruct flowbite.
Qed.

Lemma events_of_no_fetch (p : Promise Await) :
  Forall (λ e, isFetching e = false) (events_of fetch p).
Proof.
  destruct p as [[name ph url|name ph [e|html]]| |e]; cbn;
    repeat constructor.
  destruct (fetch url) as [reason|status body]; [repeat constructor|].
  destruct (negb (ok status)); repeat constructor.
Qed.

Lemma turn_extends (s : LoadAll) (i : nat) :
  ∃ more, trace (page (step s i)) = (trace (page s) ++ more)%list ∧
          Forall (λ e, isFetching e = false) more ∧
          window (page (step s i)) = window (page s).
Proof.
  unfold turn.
  destruct (continue_extends (deliver fetch render i s)) as (m2 & Ht2 & Hf2 & Hw2).
  assert (∃ m1, trace (page (deliver fetch render i s))
                = (trace (page s) ++ m1)%list ∧
                Forall (λ e, isFetching e = false) m1 ∧
                window (page (deliver fetch render i s)) = window (page s))
    as (m1 & Ht1 & Hf1 & Hw1).
  { unfold deliver. destruct (promises s !! i) as [p|];
      [|exists []; by rewrite app_nil_r].
    destruct (advance_spec fetch render p (page s)) as (_ & Ht & Hw).
    destruct (advance fetch render p (page s)) as [p' pg']. cbn in *.
    exists (events_of fetch p). split; [done|]. split; [|done].
    apply events_of_no_fetch. }
  exists (m1 ++ m2)%list. rewrite Ht2, Ht1, Hw2, Hw1, app_assoc.
  split; [done|]. split; [|done]. by apply Forall_app.
Qed.

Lemma turns_extend (schedule : list nat) (s : LoadAll) :
  ∃ more, trace (page (fold_left step schedule s))
          = (trace (page s) ++ more)%list ∧
          Forall (λ e, isFetching e = false) more ∧
          window (page (fold_left step schedule s)) = window (page s).
Proof.
  revert s. induction schedule as [|i schedule IH]; intros s.
  - exists []. by rewrite app_nil_r.
  - cbn [fold_left]. destruct (IH (step s i)) as (m2 & Ht2 & Hf2 & Hw2).
    destruct (turn_extends s i) as (m1 & Ht1 & Hf1 & Hw1).
    exists (m1 ++ m2)%list. rewrite Ht2, Ht1, Hw2, Hw1, app_assoc.
    split; [done|]. split; [|done]. by apply Forall_app.
Qed.

(** X19. Fetch first, and once.  With both placeholders in the page,
    [loadAll] issues the fetch of the header and then that of the footer
    before it handles any answer; whatever the schedule, nothing is fetched
    again afterwards, and the window is never touched. *)
Theorem loadAll_fetches_first (schedule : list nat) (pg : Page) :
  is_Some (placeholders (document pg) !! "#header-placeholder") →
  is_Some (placeholders (document pg) !! "#footer-placeholder") →
  window (page (run schedule pg)) = window pg ∧
  ∃ rest,
    trace (page (run schedule pg))
    = (trace pg ++ [Fetching "header" (componentURL "header" pg);
                    Fetching "footer" (componentURL "footer" pg)] ++ rest)%list ∧
    Forall (λ e, isFetching e = false) rest.
Proof.
  intros Hh Hf.
  assert (start_all (map fst components) pg
          = ([Pending (AwaitFetch "header" "#header-placeholder"
                         (componentURL "header" pg));
              Pending (AwaitFetch "footer" "#footer-placeholder"
                         (componentURL "footer" pg))],
             emit (Fetching "footer" (componentURL "footer" pg))
               (emit (Fetching "header" (componentURL "header" pg)) pg)))
    as Hstart.
  { cbn [map fst components start_all].
    rewrite (loadComponent_start "header" _ pg eq_refl Hh).
    rewrite (loadComponent_start "footer" _
               (emit (Fetching "header" (componentURL "header" pg)) pg)
               eq_refl Hf).
    reflexivity. }
  unfold loadAll. rewrite Hstart.
  match goal with
  | |- context [fold_left _ _ (continue _ ?s0)] =>
      destruct (turns_extend schedule (continue flowbite s0))
        as (m2 & Ht2 & Hf2 & Hw2);
      destruct (continue_extends s0) as (m1 & Ht1 & Hf1 & Hw1)
  end.
  rewrite Hw2, Hw1, Ht2, Ht1. cbn [page window emit trace].
  split; [done|]. exists (m1 ++ m2)%list. split.
  - by rewrite <- !app_assoc.
  - by apply Forall_app.
Qed.

(** ** The page the two steps find *)

Local Abbreviation served := (awaitAll fetch render).

Lemma awaitAll_snoc (schedule : list nat) (i : nat) (pg : Page) :
  served (schedule ++ [i]) pg = deliver fetch render i (served schedule pg).
Proof.
  unfold awaitAll. destruct (start_all (map fst components) pg) as [ps pg1].
  by rewrite fold_left_app.
Qed.

Lemma deliver_main (i : nat) (s : LoadAll) :
  main (deliver fetch render i s) = main s.
Proof.
  unfold deliver. destruct (promises s !! i) as [p|]; [|done].
  by destruct (advance fetch render p (page s)).
Qed.

Lemma deliver_fulfilled (i : nat) (s : LoadAll) :
  Forall (λ p, p = Fulfilled) (promises s) → deliver fetch render i s = s.
Proof.
  intros Hf. unfold deliver. destruct (promises s !! i) as [p|] eqn:Ei; [|done].
  assert (p = Fulfilled) as -> by (by eapply Forall_lookup_1 in Hf).
  cbn. rewrite list_insert_id by done. by destruct s.
Qed.

Lemma continue_cases (a : LoadAll) :
  main a = AwaitingAll →
  (main (continue flowbite a) = AwaitingAll ∧ continue flowbite a = a) ∨
  (main (continue flowbite a) = Completed ∧
   Forall (λ p, p = Fulfilled) (promises a) ∧
   promises (continue flowbite a) = promises a ∧
   page (continue flowbite a) = after_all flowbite (page a)) ∨
  (∃ e, main (continue flowbite a) = Failed e).
Proof.
  intros Hm. unfold continue. rewrite Hm.
  destruct (promise_all (promises a)) as [[]| |e] eqn:E.
  - left. by rewrite Hm.
  - right. left. cbn. repeat split; try done. by apply promise_all_Fulfilled.
  - right. right. by exists e.
Qed.

(** While [loadAll] waits, its state is that of the components alone; once
    it has completed, its page is the components' page with the two steps
    applied. *)
Lemma loadAll_awaitAll (schedule : list nat) (pg : Page) :
  (main (run schedule pg) = AwaitingAll ∧
   run schedule pg = served schedule pg) ∨
  (main (run schedule pg) = Completed ∧
   Forall (λ p, p = Fulfilled) (promises (served schedule pg)) ∧
   promises (run schedule pg) = promises (served schedule pg) ∧
   page (run schedule pg) = after_all flowbite (page (served schedule pg))) ∨
  (∃ e, main (run schedule pg) = Failed e).
Proof.
  induction schedule as [|i schedule IH] using rev_ind.
  - unfold loadAll, awaitAll.
    destruct (start_all (map fst components) pg) as [ps pg1].
    cbn [fold_left]. by apply continue_cases.
  - rewrite loadAll_app, awaitAll_snoc. cbn [fold_left].
    destruct IH as [(Hm & Hs)|[(Hm & Hf & Hps & Hpg)|(e & Hm)]].
    + rewrite Hs. unfold turn. apply continue_cases.
      rewrite deliver_main. by rewrite <- Hs.
    + right. left. rewrite (deliver_fulfilled i _ Hf).
      rewrite turn_completed; [done | done |]. by rewrite Hps.
    + right. right. exists e. unfold turn.
      rewrite continue_settled; rewrite deliver_main, Hm; done.
Qed.

Lemma loadAll_window (schedule : list nat) (pg : Page) :
  window (page (run schedule pg)) = window pg.
Proof.
  unfold loadAll.
  destruct (start_all_spec (map fst components) pg) as (_ & _ & _ & Hw & _).
  destruct (start_all (map fst components) pg) as [ps pg1]. cbn [snd] in Hw.
  match goal with
  | |- context [fold_left _ _ (continue _ ?s0)] =>
      destruct (turns_extend schedule (continue flowbite s0)) as (_ & _ & _ & ->);
      destruct (continue_extends s0) as (_ & _ & _ & ->)
  end.
  done.
Qed.

(** The links after the two steps: the hook, when there is one, has been
    called on the document, and the links it left have been marked for the
    path of the page. *)
Lemma after_all_navLinks (pg : Page) :
  navLinks (document (after_all flowbite pg))
  = map (highlightLink (normalizedPath pg))
      (navLinks (match flowbite with
                 | Some hook => hook (document pg)
                 | None => document pg
                 end)) ∧
  window (after_all flowbite pg) = window pg.
Proof. unfold after_all, highlightActiveNav, initFlowbite. by destruct flowbite. Qed.

(** C3. [loadAll] under any order of the network answers.  No promise is
    ever rejected and [loadAll] never fails.  At every moment the trace is
    the one before the call followed by events of the components only and
    then, if [loadAll] has completed, by the two steps, once each, the
    Flowbite step first: they come last, when every promise is fulfilled,
    and while a promise is pending they have not run.  Once every promise
    has been served twice, [loadAll] has completed, and each component whose
    placeholder is in the page has had its own outcome, markup injected and
    ['componentLoaded'] dispatched if its fetch succeeded, the failure
    logged if not, whatever happened to the other.  Without the Flowbite
    hook the first step only records that it ran.
    After the two steps the navigation links of the document are those the
    components left, passed through the Flowbite hook when there is one and
    then marked by [highlightActiveNav] for the path of the page; before
    them the page is exactly the one the components have made. *)
Theorem loadAll_post_steps (schedule : list nat) (pg : Page) :
  let s := run schedule pg in
  let settled := page (served schedule pg) in
  let hooked := match flowbite with
                | Some hook => hook (document settled)
                | None => document settled
                end in
  (∀ e, main s ≠ Failed e) ∧
  Forall notRejected (promises s) ∧
  (∃ evs : list Event,
     Forall (λ e, isPostStep e = false) evs ∧
     trace settled = (trace pg ++ evs)%list ∧
     ((main s = AwaitingAll ∧
       ¬ Forall (λ p, p = Fulfilled) (promises s) ∧
       trace (page s) = (trace pg ++ evs)%list ∧
       page s = settled) ∨
      (main s = Completed ∧
       Forall (λ p, p = Fulfilled) (promises s) ∧
       trace (page s) = (trace pg ++ evs ++ postSteps flowbite)%list ∧
       List.filter isPostStep (evs ++ postSteps flowbite) = postSteps flowbite ∧
       navLinks (document (page s))
         = map (highlightLink (normalizedPath pg)) (navLinks hooked) ∧
       window (page s) = window pg)) ∧
     ((∀ i : nat, (i < length components)%nat →
                  (2 ≤ count_occ Nat.eq_dec schedule i)%nat) →
      main s = Completed ∧
      ∀ (name : string) (c : Component),
        In (name, c) components →
        is_Some (placeholders (document pg) !! selector c) →
        match fetched fetch (componentURL name pg) with
        | Some html =>
            In (Injected name (selector c) html) evs ∧
            In (ComponentLoaded name (selector c)) evs
        | None => ∃ e, In (LoadFailed name e) evs
        end)) ∧
  (flowbite = None →
   postSteps flowbite = [FlowbiteStep false; HighlightStep] ∧
   ∀ pg', initFlowbite flowbite pg' = emit (FlowbiteStep false) pg').
Proof.
  cbv zeta.
  destruct (loadAll_run_facts fetch flowbite render schedule pg)
    as (Hnf & Hnr & (evs & Hc & Hcase & Hfair) & Hnone).
  pose proof (loadAll_window schedule pg) as Hw.
  split; [done|]. split; [done|]. split; [|done].
  exists evs. split; [done|].
  destruct (loadAll_awaitAll schedule pg)
    as [(Hm & Hs)|[(Hm & _ & _ & Hpg)|(e & Hm)]]; [| |by destruct (Hnf e)].
  - destruct Hcase as [(_ & Hnot & Ht)|(Hm' & _)]; [|congruence].
    rewrite <- Hs. split; [done|]. split; [|done]. left. by repeat split.
  - destruct Hcase as [(Hm' & _)|(_ & Hall & Ht & Hfil)]; [congruence|].
    destruct (after_all_navLinks (page (served schedule pg))) as (Hl & Hwa).
    rewrite Hpg in Ht, Hw. rewrite Hwa in Hw.
    rewrite after_all_trace, app_assoc in Ht. apply app_inv_tail in Ht.
    split; [done|]. split; [|done]. right. repeat split; try done.
    + by rewrite Hpg, after_all_trace, Ht, app_assoc.
    + rewrite Hpg, Hl. f_equal. unfold normalizedPath, isEnglishPage.
      by rewrite Hw.
    + by rewrite Hpg, Hwa.
Qed.



(** ** The placeholders at the end *)

Lemma replay_app (evs1 evs2 : list Event) (m : gmap string string) :
  replay (evs1 ++ evs2) m = replay evs2 (replay evs1 m).
Proof. apply fold_left_app. Qed.

Lemma replay_unchanged (evs : list Event) (m : gmap string string)
    (sel : string) :
  (∀ n h, ¬ In (Injected n sel h) evs) → replay evs m !! sel = m !! sel.
Proof.
  induction evs as [|e evs IH] using rev_ind; [done|].
  intros Hno. rewrite replay_app. cbn.
  assert (replay evs m !! sel = m !! sel) as <-.
  { apply IH. intros n h Hin. apply (Hno n h), in_or_app. by left. }
  destruct e as [| |n s h| | | |]; cbn; try done.
  apply lookup_insert_ne. intros ->. apply (Hno n h), in_or_app.
  right. by left.
Qed.

Lemma replay_injected (evs : list Event) (m : gmap string string)
    (sel html : string) :
  (∃ n, In (Injected n sel html) evs) →
  (∀ n h, In (Injected n sel h) evs → h = html) →
  replay evs m !! sel = Some html.
Proof.
  induction evs as [|e evs IH] using rev_ind; [by intros [? []]|].
  intros (n & Hin) Huniq. rewrite replay_app. cbn.
  assert (∀ n h, In (Injected n sel h) evs → h = html) as Huniq'.
  { intros n' h' H. apply (Huniq n' h'), in_or_app. by left. }
  destruct e as [| |n' s h| | | |]; cbn;
    try (apply IH; [|done]; exists n;
         apply in_app_or in Hin as [?|[[=]|[]]]; done).
  destruct (decide (s = sel)) as [->|Hne].
  - rewrite lookup_insert_eq. f_equal. apply (Huniq n' h), in_or_app.
    right. by left.
  - rewrite lookup_insert_ne by done. apply IH; [|done]. exists n.
    apply in_app_or in Hin as [?|[[= _ ? _]|[]]]; done.
Qed.

Lemma inFlight_next (pg0 : Page) (p : Promise Await) :
  inFlight fetch pg0 p → inFlight fetch pg0 (next fetch p).
Proof.
  destruct p as [[name ph url|name ph body]| |e]; cbn; try done.
  intros (c & Hc & -> & ->).
  destruct (fetch (componentURL name pg0)) as [reason|status body] eqn:Ef;
    [done|].
  destruct (ok status) eqn:Eo; cbn; [|done]. by exists c, status.
Qed.

Lemma inFlight_accounted (pg0 : Page) (p : Promise Await) :
  inFlight fetch pg0 p → Forall (accounted fetch pg0) (events_of fetch p).
Proof.
  destruct p as [[name ph url|name ph [e|html]]| |e]; cbn;
    try (intros _; by repeat constructor).
  - intros _. destruct (fetch url) as [reason|status body];
      [by repeat constructor|].
    destruct (negb (ok status)); by repeat constructor.
  - intros (c & status & Hc & -> & Hf & Ho). repeat constructor.
    exists c. repeat split; try done. unfold fetched. by rewrite Hf, Ho.
Qed.

Lemma advance_replay (p : Promise Await) (pg : Page) :
  placeholders (document (advance fetch render p pg).2)
  = replay (events_of fetch p) (placeholders (document pg)).
Proof.
  destruct p as [[name ph url|name ph [e|html]]| |e]; cbn; try done.
  destruct (fetch url) as [reason|status body]; cbn; [done|].
  by destruct (ok status).
Qed.

Lemma loadComponent_inFlight (pg0 : Page) (name : string) (pg : Page) :
  window pg = window pg0 →
  inFlight fetch pg0 (loadComponent name pg).1.
Proof.
  intros Hw. unfold loadComponent.
  destruct (lookup_component name components) as [c|] eqn:Hc; [|done].
  unfold querySelector. destruct (decide _); [|done].
  cbn. exists c. repeat split; try done.
  apply (componentURL_window name pg pg0 Hw).
Qed.

Lemma start_all_inFlight (pg0 : Page) (names : list string) (pg : Page) :
  window pg = window pg0 →
  Forall (inFlight fetch pg0) (start_all names pg).1 ∧
  ∃ evs0, trace (start_all names pg).2 = (trace pg ++ evs0)%list ∧
          Forall (accounted fetch pg0) evs0 ∧
          ∀ m, replay evs0 m = m.
Proof.
  revert pg. induction names as [|n names IH]; intros pg Hw; cbn [start_all].
  - split; [done|]. exists []. by rewrite app_nil_r.
  - pose proof (loadComponent_inFlight pg0 n pg Hw) as Hin.
    assert (window (loadComponent n pg).2 = window pg ∧
            ∃ e, trace (loadComponent n pg).2 = (trace pg ++ [e])%list ∧
                 accounted fetch pg0 e ∧ ∀ m, applyEvent m e = m)
      as (Hw1 & e & Ht & Ha & Hr).
    { unfold loadComponent.
      destruct (lookup_component n components) as [c|];
        [destruct (querySelector (selector c) pg)|]; cbn;
        (split; [done|]; eexists; split; [reflexivity|]; by split). }
    destruct (loadComponent n pg) as [p pg1]. cbn [fst snd] in *.
    destruct (IH pg1) as (Hf & evs & Ht' & Ha' & Hr'); [congruence|].
    destruct (start_all names pg1) as [ps pg2]. cbn [fst snd] in *.
    split; [by constructor|]. exists (e :: evs). split; [|split].
    + by rewrite Ht', Ht, <- app_assoc.
    + by constructor.
    + intros m. cbn. by rewrite Hr, Hr'.
Qed.

Lemma lookup_component_In (name : string) (c : Component) :
  lookup_component name components = Some c → In (name, c) components.
Proof.
  unfold components. cbn [lookup_component].
  destruct (String.eqb_spec "header" name) as [<-|_];
    [intros [= <-]; by left|].
  destruct (String.eqb_spec "footer" name) as [<-|_]; [|done].
  intros [= <-]. right. by left.
Qed.

Lemma registry_selectors (n n' : string) (c c' : Component) :
  In (n, c) components → In (n', c') components →
  selector c = selector c' → n = n'.
Proof.
  intros [[= <- <-]|[[= <- <-]|[]]] [[= <- <-]|[[= <- <-]|[]]]; done.
Qed.

(** A schedule that serves every promise twice: [loadAll] has completed,
    and the markup of every successful fetch has been injected. *)
Lemma fair_schedule_outcome (schedule : list nat) (pg : Page) :
  (∀ i : nat, (i < length components)%nat →
              (2 ≤ count_occ Nat.eq_dec schedule i)%nat) →
  main (run schedule pg) = Completed ∧
  ∃ evs, trace (page (run schedule pg))
         = (trace pg ++ evs ++ postSteps flowbite)%list ∧
    ∀ name c html,
      In (name, c) components →
      is_Some (placeholders (document pg) !! selector c) →
      fetched fetch (componentURL name pg) = Some html →
      In (Injected name (selector c) html) evs.
Proof.
  intros Hfair.
  destruct (loadAll_invariant fetch flowbite render schedule pg)
    as (evs & [Hr Hp Hc Ht Hm]).
  destruct (start_all_spec (map fst components) pg)
    as (Hr0 & Hl0 & _ & _ & _ & Hi0).
  assert (promise_all (promises (run schedule pg)) = Fulfilled) as Hall.
  { apply promise_all_Fulfilled, Forall_lookup. intros i p Hi.
    specialize (Hp i). rewrite Hi in Hp.
    destruct ((start_all (map fst components) pg).1 !! i) as [p0|] eqn:E0;
      [|done].
    injection Hp as ->. apply iter_next_settled.
    - by eapply Forall_lookup_1 in Hr0.
    - apply Hfair. apply lookup_lt_Some in E0.
      by rewrite Hl0, length_map in E0. }
  destruct Hm as [(_ & Ha & _)|(Hm & _ & Hx)]; [congruence|].
  split; [done|]. exists evs. split; [done|].
  intros name c html Hin Hph Hfetched.
  assert (∃ i, (i < length components)%nat ∧
               map fst components !! i = Some name ∧
               lookup_component name components = Some c)
    as (i & Hlt & Hname & Hlook).
  { destruct Hin as [[= <- <-]|[[= <- <-]|[]]].
    - exists 0%nat. split; [cbn; lia|]. split; reflexivity.
    - exists 1%nat. split; [cbn; lia|]. split; reflexivity. }
  pose proof (Hi0 i name c Hname Hlook Hph) as E0.
  pose proof (component_events_delivered fetch name c pg _ eq_refl) as Hd.
  rewrite Hfetched in Hd. destruct Hd as [Hd _].
  apply (Ht i 1%nat _ _ E0); [|done]. apply (Hfair i Hlt).
Qed.

(** The document follows the trace while the components are served: the
    placeholders are those of the page [loadAll] was called on with the
    injections of the trace replayed, every injection is accounted for, and
    so is every promise in flight. *)
Lemma deliver_documents (pg0 : Page) (t0 : list Event)
    (m0 : gmap string string) (s : LoadAll) (evs : list Event) (i : nat) :
  trace (page s) = (t0 ++ evs)%list →
  placeholders (document (page s)) = replay evs m0 →
  Forall (accounted fetch pg0) evs →
  Forall (inFlight fetch pg0) (promises s) →
  ∃ evs', trace (page (deliver fetch render i s)) = (t0 ++ evs')%list ∧
          placeholders (document (page (deliver fetch render i s)))
            = replay evs' m0 ∧
          Forall (accounted fetch pg0) evs' ∧
          Forall (inFlight fetch pg0) (promises (deliver fetch render i s)).
Proof.
  intros Ht Hd Ha Hf. unfold deliver.
  destruct (promises s !! i) as [p|] eqn:Ei; [|by exists evs].
  assert (inFlight fetch pg0 p) as Hp by (by eapply Forall_lookup_1 in Hf).
  destruct (advance_spec fetch render p (page s)) as (Hn & Htr & _).
  pose proof (advance_replay p (page s)) as Hrep.
  destruct (advance fetch render p (page s)) as [p' pg']. cbn [fst snd] in *.
  subst p'. exists (evs ++ events_of fetch p)%list. cbn [page promises].
  rewrite Htr, Ht, Hrep, Hd, replay_app, app_assoc.
  repeat split; try done.
  - apply Forall_app. split; [done | by apply inFlight_accounted].
  - apply Forall_insert; [done | by apply inFlight_next].
Qed.

Lemma awaitAll_documents (schedule : list nat) (pg : Page) :
  ∃ evs, trace (page (served schedule pg)) = (trace pg ++ evs)%list ∧
         placeholders (document (page (served schedule pg)))
           = replay evs (placeholders (document pg)) ∧
         Forall (accounted fetch pg) evs.
Proof.
  assert (∃ evs, trace (page (served schedule pg)) = (trace pg ++ evs)%list ∧
            placeholders (document (page (served schedule pg)))
              = replay evs (placeholders (document pg)) ∧
            Forall (accounted fetch pg) evs ∧
            Forall (inFlight fetch pg) (promises (served schedule pg)))
    as (evs & ? & ? & ? & _); [|by exists evs].
  induction schedule as [|i schedule IH] using rev_ind.
  - unfold awaitAll.
    destruct (start_all_inFlight pg (map fst components) pg eq_refl)
      as (Hf & evs0 & Ht0 & Ha0 & Hr0).
    destruct (start_all_spec (map fst components) pg)
      as (_ & _ & Hd0 & _).
    destruct (start_all (map fst components) pg) as [ps pg1].
    cbn [fst snd fold_left page promises] in *.
    exists evs0. by rewrite Hd0, Hr0.
  - destruct IH as (evs & Ht & Hd & Ha & Hf). rewrite awaitAll_snoc.
    by eapply deliver_documents.
Qed.

(** X17. What the placeholders have received does not depend on the
    schedule.  When every promise has been served twice [loadAll] has
    completed, and on the page the two steps found, each component whose
    placeholder is in the page has in it the markup of its fragment if the
    fetch succeeded and the content it had before if not; every placeholder
    that belongs to no component is as it was. *)
Theorem loadAll_placeholders (schedule : list nat) (pg : Page) :
  (∀ i : nat, (i < length components)%nat →
              (2 ≤ count_occ Nat.eq_dec schedule i)%nat) →
  main (run schedule pg) = Completed ∧
  trace (page (run schedule pg))
    = (trace (page (served schedule pg)) ++ postSteps flowbite)%list ∧
  (∀ (name : string) (c : Component),
     In (name, c) components →
     is_Some (placeholders (document pg) !! selector c) →
     placeholders (document (page (served schedule pg))) !! selector c
     = match fetched fetch (componentURL name pg) with
       | Some html => Some html
       | None => placeholders (document pg) !! selector c
       end) ∧
  (∀ other : string,
     (∀ name c, In (name, c) components → other ≠ selector c) →
     placeholders (document (page (served schedule pg))) !! other
     = placeholders (document pg) !! other).
Proof.
  intros Hfair.
  destruct (fair_schedule_outcome schedule pg Hfair)
    as (Hdone & evsI & HtI & Hinj).
  destruct (awaitAll_documents schedule pg) as (evs & Ht & Hd & Ha).
  assert (trace (page (run schedule pg))
          = (trace (page (served schedule pg)) ++ postSteps flowbite)%list)
    as Hposts.
  { destruct (loadAll_awaitAll schedule pg)
      as [(Hm & _)|[(_ & _ & _ & ->)|(e & Hm)]]; [congruence| |congruence].
    apply after_all_trace. }
  assert (evs = evsI) as ->.
  { rewrite Hposts, Ht, <- app_assoc in HtI.
    apply app_inv_head in HtI. by apply app_inv_tail in HtI. }
  split; [done|]. split; [done|].
  rewrite List.Forall_forall in Ha. rewrite Hd. split.
  - intros name c Hin Hph.
    assert (∀ n h, In (Injected n (selector c) h) evsI →
                   fetched fetch (componentURL name pg) = Some h) as Hown.
    { intros n h Hi. destruct (Ha _ Hi) as (c' & Hc' & Hs & Hfe).
      apply lookup_component_In in Hc'.
      by rewrite (registry_selectors name n c c' Hin Hc' Hs). }
    destruct (fetched fetch (componentURL name pg)) as [html|] eqn:Ef.
    + apply replay_injected.
      * exists name. by apply (Hinj name c html).
      * intros n h Hi. specialize (Hown n h Hi). congruence.
    + apply replay_unchanged. intros n h Hi. by specialize (Hown n h Hi).
  - intros other Hother. apply replay_unchanged. intros n h Hi.
    destruct (Ha _ Hi) as (c' & Hc' & Hs & _).
    apply lookup_component_In in Hc'. by apply (Hother n c').
Qed.

(** ** The links the highlight step sees *)

Section LinkKeepingHook.

(** The Flowbite call, when there is one, leaves the navigation links as
    they are. *)
Hypothesis hook_keeps_links :
  ∀ (hook : Document → Document) (d : Document),
    flowbite = Some hook → navLinks (hook d) = navLinks d.

Local Abbreviation links_after := (replayLinks render).

Lemma advance_links (path : string) (p : Promise Await) (pg : Page) :
  navLinks (document (advance fetch render p pg).2)
  = links_after path (events_of fetch p) (navLinks (document pg)).
Proof.
  destruct p as [[name ph url|name ph [e|html]]| |e]; cbn; try done.
  destruct (fetch url) as [reason|status body]; cbn; [done|].
  by destruct (ok status).
Qed.

Lemma after_all_links (pg : Page) :
  navLinks (document (after_all flowbite pg))
  = links_after (normalizedPath pg) (postSteps flowbite) (navLinks (document pg)).
Proof.
  unfold after_all, highlightActiveNav, initFlowbite, postSteps.
  destruct flowbite as [hook|] eqn:E; cbn; [|done].
  by rewrite (hook_keeps_links hook _ eq_refl).
Qed.

Lemma normalizedPath_window (pg pg' : Page) :
  window pg' = window pg → normalizedPath pg' = normalizedPath pg.
Proof. intros Hw. unfold normalizedPath, isEnglishPage. by rewrite Hw. Qed.

Lemma continue_links (pg0 : Page) (t0 : list Event) (l0 : list NavLink)
    (s : LoadAll) (evs : list Event) :
  window (page s) = window pg0 →
  trace (page s) = (t0 ++ evs)%list →
  navLinks (document (page s)) = links_after (normalizedPath pg0) evs l0 →
  ∃ evs', window (page (continue flowbite s)) = window pg0 ∧
          trace (page (continue flowbite s)) = (t0 ++ evs')%list ∧
          navLinks (document (page (continue flowbite s)))
            = links_after (normalizedPath pg0) evs' l0.
Proof.
  intros Hw Ht Hl. unfold continue.
  destruct (main s); try (by exists evs).
  destruct (promise_all (promises s)); try (by exists evs).
  exists (evs ++ postSteps flowbite)%list. cbn [page].
  rewrite after_all_trace, after_all_links, Ht, Hl, app_assoc.
  rewrite (normalizedPath_window pg0 _ Hw).
  repeat split.
  - unfold after_all, initFlowbite. by destruct flowbite.
  - unfold replayLinks. by rewrite fold_left_app.
Qed.

Lemma turn_links (pg0 : Page) (t0 : list Event) (l0 : list NavLink)
    (s : LoadAll) (evs : list Event) (i : nat) :
  window (page s) = window pg0 →
  trace (page s) = (t0 ++ evs)%list →
  navLinks (document (page s)) = links_after (normalizedPath pg0) evs l0 →
  ∃ evs', window (page (step s i)) = window pg0 ∧
          trace (page (step s i)) = (t0 ++ evs')%list ∧
          navLinks (document (page (step s i)))
            = links_after (normalizedPath pg0) evs' l0.
Proof.
  intros Hw Ht Hl. unfold turn.
  assert (∃ evs1,
            window (page (deliver fetch render i s)) = window pg0 ∧
            trace (page (deliver fetch render i s)) = (t0 ++ evs1)%list ∧
            navLinks (document (page (deliver fetch render i s)))
              = links_after (normalizedPath pg0) evs1 l0)
    as (evs1 & Hw1 & Ht1 & Hl1).
  { unfold deliver. destruct (promises s !! i) as [p|]; [|by exists evs].
    destruct (advance_spec fetch render p (page s)) as (_ & Htr & Hwa).
    pose proof (advance_links (normalizedPath pg0) p (page s)) as Hla.
    destruct (advance fetch render p (page s)) as [p' pg']. cbn [fst snd] in *.
    exists (evs ++ events_of fetch p)%list. cbn [page].
    rewrite Hwa, Htr, Ht, Hla, Hl, app_assoc. repeat split; try done.
    unfold replayLinks. by rewrite fold_left_app. }
  by apply (continue_links pg0 t0 l0 _ evs1).
Qed.

Lemma start_all_links (names : list string) (pg : Page) :
  ∃ evs0, trace (start_all names pg).2 = (trace pg ++ evs0)%list ∧
          ∀ path l, links_after path evs0 l = l.
Proof.
  revert pg. induction names as [|n names IH]; intros pg; cbn [start_all].
  - exists []. by rewrite app_nil_r.
  - assert (∃ e, trace (loadComponent n pg).2 = (trace pg ++ [e])%list ∧
                 ∀ path l, applyLinks render path l e = l) as (e & Ht & He).
    { unfold loadComponent.
      destruct (lookup_component n components) as [c|];
        [destruct (querySelector (selector c) pg)|]; cbn;
        (eexists; split; [reflexivity|]; done). }
    destruct (loadComponent n pg) as [p pg1]. cbn [fst snd] in *.
    destruct (IH pg1) as (evs & Ht' & Hl').
    destruct (start_all names pg1) as [ps pg2]. cbn [fst snd] in *.
    exists (e :: evs). split; [by rewrite Ht', Ht, <- app_assoc|].
    intros path l. unfold replayLinks in *. cbn [fold_left].
    by rewrite He, Hl'.
Qed.

(** X21. The highlight step sees the injected markup.  When [loadAll] has
    completed, the navigation links of the document are the links that the
    injections of the run produced, in the order they happened, with
    [highlightActiveNav] applied to them once, for the path of the page. *)
Theorem loadAll_highlights_injected (schedule : list nat) (pg : Page) :
  main (run schedule pg) = Completed →
  ∃ evs : list Event,
    trace (page (run schedule pg))
      = (trace pg ++ evs ++ postSteps flowbite)%list ∧
    Forall (λ e, isPostStep e = false) evs ∧
    navLinks (document (page (run schedule pg)))
      = map (highlightLink (normalizedPath pg))
          (links_after (normalizedPath pg) evs (navLinks (document pg))).
Proof.
  intros Hm.
  destruct (loadAll_invariant fetch flowbite render schedule pg)
    as (evsI & [_ _ Hc _ Hmain]).
  destruct Hmain as [(Hm' & _)|(_ & _ & HtI)]; [congruence|].
  assert (∃ evs, window (page (run schedule pg)) = window pg ∧
            trace (page (run schedule pg)) = (trace pg ++ evs)%list ∧
            navLinks (document (page (run schedule pg)))
              = links_after (normalizedPath pg) evs (navLinks (document pg)))
    as (evs & _ & Ht & Hl).
  { clear Hm HtI. induction schedule as [|i schedule IH] using rev_ind.
    - unfold loadAll.
      destruct (start_all_links (map fst components) pg) as (evs0 & Ht0 & Hl0).
      destruct (start_all_spec (map fst components) pg)
        as (_ & _ & Hd0 & Hw0 & _).
      destruct (start_all (map fst components) pg) as [ps pg1].
      cbn [fst snd fold_left] in *.
      apply (continue_links pg (trace pg) (navLinks (document pg))
               {| promises := ps; main := AwaitingAll; page := pg1 |} evs0);
        cbn [page]; [done | done |]. by rewrite Hd0, Hl0.
    - destruct IH as (evs & Hw & Ht & Hl). rewrite loadAll_app.
      cbn [fold_left]. by eapply turn_links. }
  assert (evs = (evsI ++ postSteps flowbite)%list) as ->
    by (rewrite Ht in HtI; by apply app_inv_head in HtI).
  exists evsI. split; [done|]. split; [done|]. rewrite Hl.
  unfold replayLinks. rewrite fold_left_app. unfold postSteps. by cbn.
Qed.

End LinkKeepingHook.

End LoaderMore.

(** ** Witnesses on the sample server *)

Lemma loadComponent_skipped_witness :
  (loadComponent_settled headerMissing noLinks "header"
     (mkPage (firstVisit "/" None) (mkDocument ∅ []) [])).1 = Fulfilled.
Proof.
  apply (loadComponent_skipped headerMissing noLinks "header"
           {| selector := "#header-placeholder"; file := "header.html" |}
           (mkPage (firstVisit "/" None) (mkDocument ∅ []) []));
    reflexivity.
Defined.

Lemma loadComponent_frame_rule_witness :
  placeholders (document (loadComponent_settled headerMissing noLinks "footer"
                            (samplePage "/" [])).2) !! "#header-placeholder"
  = Some "".
Proof.
  destruct (loadComponent_frame_rule headerMissing noLinks "footer"
              {| selector := "#footer-placeholder"; file := "footer.html" |}
              (samplePage "/" []) "#header-placeholder" eq_refl)
    as (_ & _ & H).
  rewrite H; [reflexivity | discriminate].
Defined.

Lemma loadAll_post_steps_witness :
  main (loadAll headerMissing None noLinks [1; 0; 1; 0]%nat
          (samplePage "/" [sampleLink "home"])) = Completed ∧
  navLinks (document (page (loadAll headerMissing None noLinks [1; 0; 1; 0]%nat
                              (samplePage "/" [sampleLink "home"]))))
  = [markActive (sampleLink "home")] ∧
  (∃ e, In (LoadFailed "header" e)
          (trace (page (loadAll headerMissing None noLinks [1; 0; 1; 0]%nat
                          (samplePage "/" [sampleLink "home"]))))) ∧
  In (ComponentLoaded "footer" "#footer-placeholder")
    (trace (page (loadAll headerMissing None noLinks [1; 0; 1; 0]%nat
                    (samplePage "/" [sampleLink "home"])))).
Proof.
  destruct (loadAll_post_steps headerMissing None noLinks [1; 0; 1; 0]%nat
              (samplePage "/" [sampleLink "home"]))
    as (_ & _ & (evs & _ & _ & Hcase & Hfair) & _).
  destruct Hfair as (Hdone & Hout).
  { intros [|[|i]] Hi; cbn in *; lia. }
  destruct Hcase as [(Hm & _)|(_ & _ & Ht & _ & Hl & _)]; [congruence|].
  split; [exact Hdone|]. split; [rewrite Hl; reflexivity|]. split.
  - destruct (Hout "header" _ (or_introl eq_refl)) as (e & He);
      [vm_compute; eauto|].
    exists e. rewrite Ht. apply in_or_app. right. apply in_or_app. by left.
  - destruct (Hout "footer" _ (or_intror (or_introl eq_refl))) as (_ & He);
      [vm_compute; eauto|].
    rewrite Ht. apply in_or_app. right. apply in_or_app. by left.
Defined.

Lemma loadAll_completed_is_final_witness :
  loadAll headerMissing None noLinks ([1; 0; 1; 0] ++ [0; 1; 1])%list
    (samplePage "/" [sampleLink "home"])
  = loadAll headerMissing None noLinks [1; 0; 1; 0]%nat
      (samplePage "/" [sampleLink "home"]).
Proof.
  apply (loadAll_completed_is_final headerMissing None noLinks).
  reflexivity.
Defined.

Lemma loadAll_fetches_first_witness :
  ∃ rest,
    trace (page (loadAll headerMissing None noLinks [0; 0; 1]%nat
                   (samplePage "/en/" [])))
    = ([Fetching "header" "/components/header-en.html";
       Fetching "footer" "/components/footer-en.html"] ++ rest)%list.
Proof.
  destruct (loadAll_fetches_first headerMissing None noLinks [0; 0; 1]%nat
              (samplePage "/en/" [])) as (_ & rest & Ht & _).
  - vm_compute. eauto.
  - vm_compute. eauto.
  - exists rest. exact Ht.
Defined.


Lemma loadAll_placeholders_witness :
  placeholders (document (page (awaitAll headerMissing noLinks
                                  [0; 1; 1; 0]%nat (samplePage "/" []))))
    !! "#header-placeholder" = Some "" ∧
  placeholders (document (page (awaitAll headerMissing noLinks
                                  [0; 1; 1; 0]%nat (samplePage "/" []))))
    !! "#footer-placeholder" = Some "<footer></footer>".
Proof.
  destruct (loadAll_placeholders headerMissing None noLinks
              [0; 1; 1; 0]%nat (samplePage "/" []))
    as (_ & _ & H & _).
  { intros [|[|i]] Hi; cbn in *; lia. }
  split.
  - refine (eq_trans (H "header" _ (or_introl eq_refl) _) _);
      [vm_compute; eauto | reflexivity].
  - refine (eq_trans (H "footer" _ (or_intror (or_introl eq_refl)) _) _);
      [vm_compute; eauto | reflexivity].
Defined.

Lemma loadAll_highlights_injected_witness :
  ∃ evs : list Event,
    navLinks (document (page (loadAll allOk None headerLinks [0; 1; 0; 1]%nat
                                (samplePage "/" []))))
    = map (highlightLink "/") (replayLinks headerLinks "/" evs []).
Proof.
  destruct (loadAll_highlights_injected allOk None headerLinks
              ltac:(intros hook d [=]) [0; 1; 0; 1]%nat (samplePage "/" [])
              eq_refl) as (evs & _ & _ & Hl).
  exists evs. exact Hl.
Defined.

(** The same run, computed: the links the header brings are there, and
    ['home'] is the one highlighted. *)
Example loadAll_header_links :
  navLinks (document (page (loadAll allOk None headerLinks [0; 1; 0; 1]%nat
                              (samplePage "/" []))))
  = [markActive (sampleLink "home"); sampleLink "about"].
Proof. vm_compute. reflexivity. Qed.

(** With a hook in the page: the hook has seen the links of the injected
    header, and the highlight step has marked ['home'] after it. *)
Example loadAll_with_hook :
  let s := loadAll allOk (Some sampleHook) headerLinks [0; 1; 0; 1]%nat
             (samplePage "/" []) in
  main s = Completed ∧
  map classList (navLinks (document (page s)))
  = [["nav-link"; "flowbite"; "text-blue-600"; "md:text-blue-600"];
     ["nav-link"; "text-gray-900"; "flowbite"]] ∧
  map aria_current (navLinks (document (page s))) = [Some "page"; None] ∧
  List.filter isPostStep (trace (page s)) = [FlowbiteStep true; HighlightStep].
Proof. vm_compute. repeat split. Qed.
